(** * boostfs: path value type, canonicalization and tree removal

    A shallow embedding of [filesystem.cpp] / [filesystem.h] in the POSIX
    build (no [_WIN32], no [FS_DRYRUN]).

    - [std::string] is a list of characters indexed by [size_t], modelled
      as [Z] with the 64-bit wrap-around written out ([wrap]);
    - the host operating system is an interface ([Host]); the C++ functions
      are written once, over any host;
    - a C++ call ends in one of four ways ([result]): it returns, it throws,
      it has undefined behaviour, or the model's fuel ran out. *)

From Stdlib Require Import ZArith List Ascii String Bool Lia.
Import ListNotations.

Local Open Scope Z_scope.

(** ** Results of C++ calls *)

Inductive result (A : Type) : Type :=
| Ret (a : A)              (* the call returns [a] *)
| Throw (what : string)    (* an exception leaves the call *)
| Undefined                (* the execution has undefined behaviour *)
| Timeout.                 (* the fuel of the model ran out *)

Arguments Ret {A} a.
Arguments Throw {A} what.
Arguments Undefined {A}.
Arguments Timeout {A}.

Definition bind {A B : Type} (m : result A) (k : A -> result B) : result B :=
  match m with
  | Ret a => k a
  | Throw what => Throw what
  | Undefined => Undefined
  | Timeout => Timeout
  end.

Notation "x <- m ;; k" := (bind m (fun x => k))
  (at level 61, m at next level, right associativity).

Definition returns {A : Type} (m : result A) : Prop := exists a, m = Ret a.

(** ** size_t *)

Module size_t.

Definition bits : Z := 64.
Definition modulus : Z := 2 ^ bits.

(** Unsigned arithmetic is modulo [2 ^ bits]. *)
Definition wrap (z : Z) : Z := z mod modulus.

End size_t.

(** ** std::string *)

Definition std_string : Type := list ascii.

(** A literal. *)
Definition lit (s : string) : std_string := list_ascii_of_string s.

Module str.

Definition npos : Z := size_t.modulus - 1.

Definition size (s : std_string) : Z := Z.of_nat (List.length s).

Definition empty (s : std_string) : bool :=
  match s with [] => true | _ => false end.

(** [s[i]]: the character at [i]; [s[size s]] is the terminating NUL. *)
Definition get (s : std_string) (i : Z) : ascii :=
  nth (Z.to_nat i) s zero.

(** [s.back()]: undefined on the empty string. *)
Definition back (s : std_string) : result ascii :=
  match s with
  | [] => Undefined
  | c :: t => Ret (last t c)
  end.

(** Offset of the first [c] in [s]. *)
Fixpoint first_index (c : ascii) (s : std_string) : option nat :=
  match s with
  | [] => None
  | x :: t =>
      if Ascii.eqb x c then Some O
      else match first_index c t with
           | Some k => Some (S k)
           | None => None
           end
  end.

(** [s.find(c, pos)] *)
Definition find (s : std_string) (c : ascii) (pos : Z) : Z :=
  if size s <=? pos then npos
  else match first_index c (skipn (Z.to_nat pos) s) with
       | Some k => pos + Z.of_nat k
       | None => npos
       end.

(** Offset of the last [c] in [s]. *)
Fixpoint last_index (c : ascii) (s : std_string) : option nat :=
  match s with
  | [] => None
  | x :: t =>
      match last_index c t with
      | Some k => Some (S k)
      | None => if Ascii.eqb x c then Some O else None
      end
  end.

(** [s.rfind(c, pos)]: the last [c] at an index [<= pos]. *)
Definition rfind (s : std_string) (c : ascii) (pos : Z) : Z :=
  if size s =? 0 then npos
  else match last_index c (firstn (Z.to_nat (Z.min pos (size s - 1)) + 1) s) with
       | Some k => Z.of_nat k
       | None => npos
       end.

(** [s.substr(pos)] and [s.substr(pos, n)]: throw when [pos > size]. *)
Definition substr (s : std_string) (pos : Z) (n : Z) : result std_string :=
  if size s <? pos then Throw "basic_string::substr"
  else Ret (firstn (Z.to_nat (Z.min n (size s - pos))) (skipn (Z.to_nat pos) s)).

Definition substr_from (s : std_string) (pos : Z) : result std_string :=
  substr s pos npos.

(** [s.erase(pos, n)] and [s.erase(pos)]: throw when [pos > size]. *)
Definition erase (s : std_string) (pos : Z) (n : Z) : result std_string :=
  if size s <? pos then Throw "basic_string::erase"
  else Ret (firstn (Z.to_nat pos) s
            ++ skipn (Z.to_nat (pos + Z.min n (size s - pos))) s).

Definition erase_from (s : std_string) (pos : Z) : result std_string :=
  erase s pos npos.

(** [s.c_str()] read as a C string: the characters before the first NUL. *)
Fixpoint c_str (s : std_string) : std_string :=
  match s with
  | [] => []
  | x :: t => if Ascii.eqb x zero then [] else x :: c_str t
  end.

Definition eqb (a b : std_string) : bool :=
  if list_eq_dec ascii_dec a b then true else false.

(** [strcmp(a, b) == 0] on two C strings. *)
Definition strcmp_eq0 (a b : std_string) : bool := eqb (c_str a) (c_str b).

End str.

Definition slash : ascii := "/"%char.
Definition dot : ascii := "."%char.

(** ** File-local helpers *)

Definition is_slash (c : ascii) : bool := Ascii.eqb c slash.

Definition last_slash (s : std_string) : Z := str.rfind s slash str.npos.

(** No-op outside [_WIN32]. *)
Definition forward_slashes (s : std_string) : std_string := s.

(** Short-circuit conjunction, evaluated left to right as [&&] in C++. *)
Notation "a &&& b" := (if a then b else false)
  (at level 40, left associativity).

(** ** class Path *)

Module Path.

Record t : Type := make { s : std_string }.

(** [operator+] *)
Definition plus (a b : t) : t := make (s a ++ s b).

(** [operator/] *)
Definition div (a b : t) : result t :=
  c <- str.back (s a) ;;
  if is_slash c then Ret (make (s a ++ s b))
  else Ret (make (s a ++ lit "/" ++ s b)).

(** [operator/=]: the new value of [*this]. *)
Definition div_assign (a b : t) : result t :=
  c <- str.back (s a) ;;
  if is_slash c then Ret (make (s a ++ s b))
  else Ret (make (s a ++ (lit "/" ++ s b))).

Definition parent_path (p : t) : result t :=
  let i := last_slash (s p) in
  if i =? str.npos then Ret (make (lit ""))
  else if i =? 0 then Ret (make (lit "/"))
  else r <- str.substr (s p) 0 i ;; Ret (make r).

Definition empty (p : t) : bool := str.empty (s p).
Definition size (p : t) : Z := str.size (s p).
Definition string (p : t) : std_string := s p.
Definition c_str (p : t) : std_string := str.c_str (s p).

Definition filename (p : t) : result t :=
  let i := last_slash (s p) in
  if i =? str.npos then Ret p
  else r <- str.substr_from (s p) (size_t.wrap (i + 1)) ;; Ret (make r).

Definition extension (p : t) : result t :=
  let i := str.rfind (s p) dot str.npos in
  if i =? str.npos then Ret (make (lit ""))
  else r <- str.substr_from (s p) i ;; Ret (make r).

(** The local [st] is computed and not used afterwards. *)
Definition stem (p : t) : result t :=
  st <- filename p ;;
  let i := str.rfind (s p) dot str.npos in
  if i =? str.npos then Ret (make (s p))
  else r <- str.substr (s p) 0 i ;; Ret (make r).

(** The new value of [*this]. *)
Definition replace_extension (this p : t) : result t :=
  let i := str.rfind (s this) dot str.npos in
  s1 <- (if negb (i =? str.npos) then str.erase_from (s this) i
         else Ret (s this)) ;;
  let s2 := if negb (str.empty (s p)) &&& negb (Ascii.eqb (str.get (s p) 0) dot)
            then s1 ++ [dot] else s1 in
  Ret (make (s2 ++ s p)).

End Path.

Definition Path : Type := Path.t.

(** A path from a literal. *)
Definition path (x : string) : Path := Path.make (lit x).

(** ** The host operating system *)

(** The file type bits of [st_mode], as [S_ISREG] and [S_ISDIR] read them. *)
Inductive file_type : Type := S_IFREG | S_IFDIR | S_IFOTHER.

(** The calls the library makes. Paths arrive as C strings.
    - [lstat]: [None] when the call does not return 0;
    - [unlink], [rmdir], [mkdir]: whether the call returned 0, and the
      file system afterwards;
    - [opendir]: [None] for a null stream, otherwise the names [readdir]
      will hand out, in order;
    - [getcwd]: the working directory for a buffer of the given length,
      [None] for a null result. *)
Class Host (W : Type) : Type := {
  lstat : W -> std_string -> option file_type;
  unlink : W -> std_string -> bool * W;
  rmdir : W -> std_string -> bool * W;
  mkdir : W -> std_string -> Z -> bool * W;
  opendir : W -> std_string -> option (list std_string);
  getcwd : W -> Z -> option std_string
}.

(** The octal literal [0755]. *)
Definition mode_0755 : Z := 7 * 64 + 5 * 8 + 5.

Section Filesystem.

Context {W : Type} {H : Host W}.

(** Calls that read or change the file system. *)
Definition M (A : Type) : Type := W -> result (A * W).

Definition currentdir (w : W) (len : Z) : option std_string := getcwd w len.

(** ** complete and canonical *)

Definition complete (w : W) (p : Path) : result Path :=
  let N := 4096 in
  let s := Path.string p in
  if (0 <? Path.size p) &&& is_slash (str.get s 0) then Ret p
  else match currentdir w N with
       | None => Throw "could not obtain current working directory"
       | Some buf =>
           if Path.empty p then Ret (Path.make (str.c_str buf))
           else Path.div (Path.make (str.c_str buf)) p
       end.

Definition is_char (s : std_string) (i : Z) (c : ascii) : bool :=
  Ascii.eqb (str.get s i) c.

(** The [while] loop of [canonical]; [continue] re-enters with the same
    [pos], [break] returns. *)
Fixpoint canonical_loop (fuel : nat) (s : std_string) (pos : Z)
  : result std_string :=
  match fuel with
  | O => Timeout
  | S fuel =>
      let pos := str.find s dot pos in
      if pos =? str.npos then Ret s
      else if is_char s (size_t.wrap (pos - 1)) slash
              &&& (pos <? size_t.wrap (str.size s - 1))
              &&& is_char s (size_t.wrap (pos + 1)) slash
      then
        let j := str.rfind s slash (size_t.wrap (pos - 2)) in
        s' <- str.erase s j (size_t.wrap (pos - j + 1)) ;;
        canonical_loop fuel s' pos
      else if is_char s (size_t.wrap (pos - 1)) slash
              &&& (pos =? size_t.wrap (str.size s - 1))
      then
        str.erase_from s (str.rfind s slash (size_t.wrap (pos - 2)))
      else if (pos <? size_t.wrap (str.size s - 2))
              &&& is_char s (size_t.wrap (pos - 1)) slash
              &&& is_char s (size_t.wrap (pos + 1)) dot
              &&& is_char s (size_t.wrap (pos + 2)) slash
      then
        let j := str.rfind s slash (size_t.wrap (pos - 2)) in
        s' <- str.erase s j (size_t.wrap (pos - j + 2)) ;;
        canonical_loop fuel s' pos
      else if (pos =? size_t.wrap (str.size s - 2))
              &&& is_char s (size_t.wrap (pos - 1)) slash
              &&& is_char s (size_t.wrap (pos + 1)) dot
      then
        str.erase_from s (str.rfind s slash (size_t.wrap (pos - 2)))
      else canonical_loop fuel s (size_t.wrap (pos + 1))
  end.

Definition canonical (fuel : nat) (w : W) (p : Path) : result Path :=
  c <- complete w p ;;
  let s := forward_slashes (Path.string c) in
  s' <- canonical_loop fuel s 1 ;;
  Ret (Path.make s').

(** [Path::operator==]: both operands are canonicalized, then compared as
    C strings. *)
Definition Path_eq (fuel : nat) (w : W) (a b : Path) : result bool :=
  ca <- canonical fuel w a ;;
  cb <- canonical fuel w b ;;
  Ret (str.strcmp_eq0 (Path.c_str ca) (Path.c_str cb)).

Definition Path_ne (fuel : nat) (w : W) (a b : Path) : result bool :=
  e <- Path_eq fuel w a b ;; Ret (negb e).

(** ** Calls on the file system *)

Definition ret {A : Type} (a : A) : M A := fun w => Ret (a, w).

Definition bindM {A B : Type} (m : M A) (k : A -> M B) : M B :=
  fun w =>
    match m w with
    | Ret (a, w') => k a w'
    | Throw what => Throw what
    | Undefined => Undefined
    | Timeout => Timeout
    end.

(** A computation that only reads the file system. *)
Definition reading {A : Type} (f : W -> result A) : M A :=
  fun w => x <- f w ;; Ret (x, w).

(** A computation that does not touch it. *)
Definition lift {A : Type} (r : result A) : M A := reading (fun _ => r).

(** A host call that reports success and changes the file system. *)
Definition sys (f : W -> bool * W) : M bool := fun w => Ret (f w).

Notation "x <~ m ;; k" := (bindM m (fun x => k))
  (at level 61, m at next level, right associativity).

Definition exists_ (p : Path) : M bool :=
  reading (fun w =>
    match lstat w (Path.c_str p) with
    | Some _ => Ret true
    | None => Ret false
    end).

Definition is_regular_file (p : Path) : M bool :=
  reading (fun w =>
    match lstat w (Path.c_str p) with
    | None => Ret false
    | Some S_IFREG => Ret true
    | Some _ => Ret false
    end).

Definition is_directory (p : Path) : M bool :=
  reading (fun w =>
    match lstat w (Path.c_str p) with
    | None => Ret false
    | Some S_IFDIR => Ret true
    | Some _ => Ret false
    end).

Definition remove (p : Path) : M bool :=
  d <~ is_directory p ;;
  if d then sys (fun w => rmdir w (Path.c_str p))
  else sys (fun w => unlink w (Path.c_str p)).

(** The result of [mkdir] is dropped; the function returns [void]. *)
Definition create_directory (p : Path) : M unit :=
  _ <~ sys (fun w => mkdir w (Path.c_str p) mode_0755) ;;
  ret tt.

(** ** directory_entry and directory_iterator *)

Record directory_entry : Type := mk_entry { entry_path : Path }.

Record directory_iterator : Type := mk_iterator {
  dir : option (list std_string);  (* the open stream: the names not yet
                                      read; [None] is [nullptr] *)
  dp : option std_string;          (* [d_name] of the current entry;
                                      [None] is [nullptr] *)
  it_p : Path
}.

(** [directory_iterator()] *)
Definition end_iterator : directory_iterator :=
  mk_iterator None None (Path.make (lit "")).

(** [operator++] *)
Definition incr (it : directory_iterator) : directory_iterator :=
  match dir it with
  | None => it
  | Some [] => mk_iterator None None (it_p it)
  | Some (n :: rest) => mk_iterator (Some rest) (Some n) (it_p it)
  end.

(** [directory_iterator(const Path&)] *)
Definition open_iterator (p2 : Path) : M directory_iterator :=
  reading (fun w =>
    match opendir w (str.c_str (Path.string p2)) with
    | None =>
        Throw ("cannot open directory "
               ++ string_of_list_ascii (Path.string p2))
    | Some names => Ret (incr (mk_iterator (Some names) None p2))
    end).

(** [operator*]: reads through [dp]. *)
Definition deref (it : directory_iterator) : result directory_entry :=
  match dp it with
  | None => Undefined
  | Some d_name =>
      e <- Path.div (it_p it) (Path.make (str.c_str d_name)) ;;
      Ret (mk_entry e)
  end.

(** Equality of two pointers held by two different iterators. A stream
    belongs to one iterator at a time, so they are equal only when both
    are null. *)
Definition ptr_eq {A : Type} (a b : option A) : bool :=
  match a, b with
  | None, None => true
  | _, _ => false
  end.

Definition is_null {A : Type} (a : option A) : bool :=
  match a with None => true | Some _ => false end.

(** [directory_iterator::operator==]. The paths are compared before the
    null test, so both are canonicalized whenever the pointers agree. *)
Definition iterator_eq (fuel : nat) (it rhs : directory_iterator) : M bool :=
  if ptr_eq (dir it) (dir rhs) &&& ptr_eq (dp it) (dp rhs) then
    e <~ reading (fun w => Path_eq fuel w (it_p it) (it_p rhs)) ;;
    if e then ret true else ret (is_null (dir it) &&& is_null (dp it))
  else ret false.

Definition iterator_ne (fuel : nat) (it rhs : directory_iterator) : M bool :=
  e <~ iterator_eq fuel it rhs ;; ret (negb e).

(** ** remove_all *)

Definition frame : Type := directory_iterator * Path.

(** How the [for] loop over one directory ends: [return false], or the
    iterator reached the end with these directories pending. *)
Inductive for_exit : Type :=
| Return (b : bool)
| Done (it : directory_iterator) (moredirs : list frame).

(** The [for] loop on [dir.first]. *)
Fixpoint for_entries (fuel cf : nat) (it : directory_iterator)
    (moredirs : list frame) : M for_exit :=
  match fuel with
  | O => fun _ => Timeout
  | S fuel =>
      more <~ iterator_ne cf it end_iterator ;;
      if negb more then ret (Done it moredirs)
      else
        e <~ lift (deref it) ;;
        let p2 := entry_path e in
        f1 <~ lift (Path.filename p2) ;;
        is_dot <~ reading (fun w => Path_eq cf w f1 (path ".")) ;;
        skip <~ (if is_dot then ret true
                 else
                   f2 <~ lift (Path.filename p2) ;;
                   reading (fun w => Path_eq cf w f2 (path ".."))) ;;
        if skip then for_entries fuel cf (incr it) moredirs
        else
          d <~ is_directory p2 ;;
          if d then
            sub <~ open_iterator p2 ;;
            for_entries fuel cf (incr it) (moredirs ++ [(sub, p2)])
          else
            ok <~ remove p2 ;;
            if negb ok then ret (Return false)
            else for_entries fuel cf (incr it) moredirs
  end.

(** [v.resize(n)] when growing: new elements are value-initialized. *)
Definition resize (v : list frame) (n : nat) : list frame :=
  firstn n v ++ repeat (end_iterator, Path.make (lit "")) (n - List.length v).

(** A frame after it was moved from: the stream pointer is nulled, the
    entry pointer stays, the path is left empty. *)
Definition moved_from (f : frame) : frame :=
  (mk_iterator None (dp (fst f)) (Path.make (lit "")), Path.make (lit "")).

Fixpoint store (v : list frame) (i : nat) (f : frame) : list frame :=
  match v, i with
  | [], _ => []
  | _ :: t, O => f :: t
  | x :: t, S i => x :: store t i f
  end.

(** [std::move(first, last, d_first)] into [dst] from index [at_]: each
    element is written through the output iterator; a write at or past
    [dst.size()] is out of bounds. *)
Fixpoint std_move (src dst : list frame) (at_ : nat) : result (list frame) :=
  match src with
  | [] => Ret dst
  | f :: rest =>
      if (at_ <? List.length dst)%nat then std_move rest (store dst at_ f) (S at_)
      else Undefined
  end.

(** The [while] loop on [dirstack]. [dir] is the last element; the [for]
    loop advances its iterator in place. *)
Fixpoint while_dirstack (fuel cf : nat) (dirstack moredirs : list frame)
  : M bool :=
  match fuel with
  | O => fun _ => Timeout
  | S fuel =>
      match dirstack with
      | [] => ret true
      | f0 :: rest =>
          let dir_ := last rest f0 in
          r <~ for_entries (S fuel) cf (fst dir_) moredirs ;;
          match r with
          | Return b => ret b
          | Done it moredirs =>
              let dirstack := removelast dirstack ++ [(it, snd dir_)] in
              if match moredirs with [] => true | _ => false end then
                _ <~ remove (snd dir_) ;;
                while_dirstack fuel cf (removelast dirstack) moredirs
              else
                let dirstack :=
                  resize dirstack (List.length dirstack + List.length moredirs) in
                dirstack <~ lift (std_move moredirs dirstack
                                    (List.length dirstack)) ;;
                while_dirstack fuel cf dirstack (map moved_from moredirs)
          end
      end
  end.

Definition remove_all (fuel : nat) (p : Path) : M bool :=
  d <~ is_directory p ;;
  if negb d then sys (fun w => unlink w (Path.c_str p))
  else
    it <~ open_iterator p ;;
    while_dirstack fuel fuel [(it, p)] [].

End Filesystem.

Arguments M W A : clear implicits.

(** ** A file system in memory

    A host for running the functions on concrete trees. Names are looked
    up as they are spelled; the order of the table is the order in which
    a directory is enumerated. *)

Module memfs.

Record node : Type := mk_node {
  kind : file_type;
  pinned : bool;       (* [unlink] and [rmdir] on it fail *)
  closed : bool        (* [opendir] on it fails *)
}.

Record t : Type := mk {
  cwd : option std_string;
  nodes : list (std_string * node)
}.

Definition file : node := mk_node S_IFREG false false.
Definition folder : node := mk_node S_IFDIR false false.

Fixpoint lookup (k : std_string) (l : list (std_string * node)) : option node :=
  match l with
  | [] => None
  | (k', n) :: r => if str.eqb k k' then Some n else lookup k r
  end.

Fixpoint delete (k : std_string) (l : list (std_string * node))
  : list (std_string * node) :=
  match l with
  | [] => []
  | (k', n) :: r => if str.eqb k k' then delete k r else (k', n) :: delete k r
  end.

(** [Some rest] when [k = pre ++ rest]. *)
Fixpoint strip (pre k : std_string) : option std_string :=
  match pre, k with
  | [], _ => Some k
  | a :: pre', b :: k' => if Ascii.eqb a b then strip pre' k' else None
  | _ :: _, [] => None
  end.

(** The name of [k] inside directory [d], when [k] is directly in it. *)
Definition child_name (d k : std_string) : option std_string :=
  match strip (d ++ [slash]) k with
  | Some (c :: n) =>
      if existsb (fun x => Ascii.eqb x slash) (c :: n) then None
      else Some (c :: n)
  | _ => None
  end.

Fixpoint children (d : std_string) (l : list (std_string * node))
  : list std_string :=
  match l with
  | [] => []
  | (k, _) :: r =>
      match child_name d k with
      | Some n => n :: children d r
      | None => children d r
      end
  end.

(** The directory part of [k]: up to its last separator. *)
Definition dirname (k : std_string) : std_string :=
  match str.last_index slash k with
  | Some i => firstn i k
  | None => []
  end.

Definition lstat (w : t) (k : std_string) : option file_type :=
  option_map kind (lookup k (nodes w)).

Definition unlink (w : t) (k : std_string) : bool * t :=
  match lookup k (nodes w) with
  | Some (mk_node S_IFDIR _ _) => (false, w)
  | Some (mk_node _ false _) => (true, mk (cwd w) (delete k (nodes w)))
  | _ => (false, w)
  end.

Definition rmdir (w : t) (k : std_string) : bool * t :=
  match lookup k (nodes w), children k (nodes w) with
  | Some (mk_node S_IFDIR false _), [] =>
      (true, mk (cwd w) (delete k (nodes w)))
  | _, _ => (false, w)
  end.

Definition mkdir (w : t) (k : std_string) (mode : Z) : bool * t :=
  match lookup k (nodes w), lookup (dirname k) (nodes w) with
  | None, Some (mk_node S_IFDIR _ _) =>
      (true, mk (cwd w) (nodes w ++ [(k, folder)]))
  | _, _ => (false, w)
  end.

Definition opendir (w : t) (k : std_string) : option (list std_string) :=
  match lookup k (nodes w) with
  | Some (mk_node S_IFDIR _ false) =>
      Some (lit "." :: lit ".." :: children k (nodes w))
  | _ => None
  end.

Definition getcwd (w : t) (len : Z) : option std_string :=
  match cwd w with
  | Some d => if str.size d <? len then Some d else None
  | None => None
  end.

End memfs.

#[export] Instance memfs_host : Host memfs.t := {|
  lstat := memfs.lstat;
  unlink := memfs.unlink;
  rmdir := memfs.rmdir;
  mkdir := memfs.mkdir;
  opendir := memfs.opendir;
  getcwd := memfs.getcwd
|}.

(** ** Path segments *)

(** The segments of a path: what stands between its separators. *)
Fixpoint segments (s : std_string) : list std_string :=
  match s with
  | [] => [[]]
  | c :: t =>
      if is_slash c then [] :: segments t
      else match segments t with
           | seg :: r => (c :: seg) :: r
           | [] => [[c]]
           end
  end.

Definition is_dot_segment (seg : std_string) : bool :=
  str.eqb seg (lit ".") || str.eqb seg (lit "..").

(** A segment holds no separator. *)
Definition no_slash (seg : std_string) : bool :=
  forallb (fun c => negb (is_slash c)) seg.

(** No segment is [.] or [..]. *)
Definition dot_free (p : Path) : bool :=
  forallb (fun seg => negb (is_dot_segment seg)) (segments (Path.string p)).

(** POSIX: the path starts with a separator. *)
Definition is_absolute (p : Path) : bool :=
  match Path.string p with
  | c :: _ => is_slash c
  | [] => false
  end.

(** ** Concrete trees *)

Module trees.

Definition home : option std_string := Some (lit "/home/u").

(** Only a working directory. *)
Definition bare : memfs.t := memfs.mk home [].

(** [/tmp/t] with a file, and a subdirectory with a file. *)
Definition nested : memfs.t :=
  memfs.mk home
    [ (lit "/tmp", memfs.folder);
      (lit "/tmp/t", memfs.folder);
      (lit "/tmp/t/a.txt", memfs.file);
      (lit "/tmp/t/sub", memfs.folder);
      (lit "/tmp/t/sub/b.txt", memfs.file) ].

(** [/tmp/d] with one empty subdirectory. *)
Definition one_subdir : memfs.t :=
  memfs.mk home
    [ (lit "/tmp", memfs.folder);
      (lit "/tmp/d", memfs.folder);
      (lit "/tmp/d/e", memfs.folder) ].

(** [/tmp/f] with two files. *)
Definition flat : memfs.t :=
  memfs.mk home
    [ (lit "/tmp", memfs.folder);
      (lit "/tmp/f", memfs.folder);
      (lit "/tmp/f/one", memfs.file);
      (lit "/tmp/f/two", memfs.file) ].

(** An empty directory that [rmdir] refuses to delete. *)
Definition pinned_dir : memfs.t :=
  memfs.mk home
    [ (lit "/tmp", memfs.folder);
      (lit "/tmp/e", memfs.mk_node S_IFDIR true false) ].

(** A directory whose first file [unlink] refuses to delete. *)
Definition pinned_file : memfs.t :=
  memfs.mk home
    [ (lit "/tmp", memfs.folder);
      (lit "/tmp/g", memfs.folder);
      (lit "/tmp/g/keep", memfs.mk_node S_IFREG true false);
      (lit "/tmp/g/other", memfs.file) ].

(** A directory that cannot be opened for enumeration. *)
Definition closed_dir : memfs.t :=
  memfs.mk home
    [ (lit "/tmp", memfs.folder);
      (lit "/tmp/locked", memfs.mk_node S_IFDIR false true) ].

(** [nested] after [/tmp/t/a.txt] was unlinked. *)
Definition nested_without_a : memfs.t :=
  memfs.mk home
    [ (lit "/tmp", memfs.folder);
      (lit "/tmp/t", memfs.folder);
      (lit "/tmp/t/sub", memfs.folder);
      (lit "/tmp/t/sub/b.txt", memfs.file) ].

End trees.

(** ** What C7 asks of create_directory *)

(** Some way of reading the value [create_directory]
    hands back tells whether its [mkdir] call succeeded. *)
Definition reports_mkdir (W : Type) (H : Host W) : Prop :=
  exists as_bool : unit -> bool,
    forall (w w' : W) (p : Path) (r : unit),
      create_directory p w = Ret (r, w') ->
      as_bool r = fst (mkdir w (Path.c_str p) mode_0755).

(** ** Vocabulary of the further properties *)

(** No character of [s] is [c]. *)
Definition lacks (c : ascii) (s : std_string) : bool :=
  forallb (fun x => negb (Ascii.eqb x c)) s.

(** The last character is a separator. *)
Definition ends_with_slash (s : std_string) : bool :=
  match s with
  | [] => false
  | c :: t => is_slash (last t c)
  end.

(** What [stem] leaves: the text before the last dot of the whole path. *)
Definition before_last_dot (s : std_string) : std_string :=
  match str.last_index dot s with
  | Some k => firstn k s
  | None => s
  end.

(** The string starts with a separator. *)
Definition rooted (s : std_string) : bool :=
  match s with
  | c :: _ => is_slash c
  | [] => false
  end.

(** What the loop may answer on a rooted string. *)
Definition rooted_answer (s : std_string) (r : result std_string) : Prop :=
  r = Timeout
  \/ exists s', r = Ret s'
       /\ (rooted s' = true \/ s' = [])
       /\ str.size s' <= str.size s.

(** The text before the last separator. *)
Definition before_last_slash (s : std_string) : std_string :=
  match str.last_index slash s with
  | Some k => firstn k s
  | None => s
  end.

(** [k] times [operator++]. *)
Fixpoint advance (k : nat) (it : directory_iterator) : directory_iterator :=
  match k with
  | O => it
  | S k => advance k (incr it)
  end.



(** A file system whose working directory cannot be obtained. *)
Definition no_cwd : memfs.t := memfs.mk None [].

(** * Properties *)

(** ** canonical on paths without dot segments *)

Lemma skipn_nth_cons (s : std_string) (n : nat) (d : ascii) :
  (n < List.length s)%nat -> skipn n s = nth n s d :: skipn (S n) s.
Proof.
  revert n. induction s as [|x t IH]; intros n L; simpl in L.
  - lia.
  - destruct n as [|n]; [reflexivity|].
    simpl. apply IH. lia.
Qed.

Lemma first_index_spec (c : ascii) (s : std_string) (k : nat) :
  str.first_index c s = Some k -> (k < List.length s)%nat /\ nth k s zero = c.
Proof.
  revert k. induction s as [|x t IH]; intros k E; simpl in E.
  - discriminate E.
  - destruct (Ascii.eqb x c) eqn:X.
    + injection E as <-. apply Ascii.eqb_eq in X. simpl. split; [lia | exact X].
    + destruct (str.first_index c t) as [j|]; [|discriminate E].
      injection E as <-. destruct (IH j eq_refl) as [L N].
      simpl. split; [lia | exact N].
Qed.

Lemma find_spec (s : std_string) (c : ascii) (pos : Z) :
  0 <= pos ->
  str.find s c pos = str.npos
  \/ (pos <= str.find s c pos < str.size s /\ str.get s (str.find s c pos) = c).
Proof.
  intro P. unfold str.find.
  destruct (str.size s <=? pos) eqn:L; [left; reflexivity|].
  apply Z.leb_gt in L.
  destruct (str.first_index c (skipn (Z.to_nat pos) s)) as [k|] eqn:F;
    [right | left; reflexivity].
  apply first_index_spec in F. destruct F as [K N].
  rewrite length_skipn in K. rewrite nth_skipn in N.
  unfold str.size in *. unfold str.get.
  replace (Z.to_nat (pos + Z.of_nat k)) with (Z.to_nat pos + k)%nat by lia.
  split; [lia | exact N].
Qed.

(** *** Segments and separators *)


Lemma segments_not_nil (s : std_string) : segments s <> [].
Proof.
  destruct s as [|c t]; simpl; [discriminate|].
  destruct (is_slash c); [discriminate|].
  destruct (segments t); discriminate.
Qed.

Lemma segments_first (seg post : std_string) :
  no_slash seg = true ->
  post = [] \/ (exists t, post = slash :: t) ->
  exists r, segments (seg ++ post) = seg :: r.
Proof.
  intros N P. induction seg as [|c seg IH]; simpl in *.
  - destruct P as [-> | [t ->]]; simpl; eauto.
  - apply andb_true_iff in N. destruct N as [C N].
    apply negb_true_iff in C. rewrite C.
    destruct (IH N) as [r E]. rewrite E. eauto.
Qed.

Lemma segments_after_slash (pre rest : std_string) (seg : std_string) :
  In seg (segments rest) -> In seg (tl (segments (pre ++ slash :: rest))).
Proof.
  intro I. induction pre as [|c pre IH]; simpl.
  - exact I.
  - destruct (is_slash c); simpl.
    + destruct (segments (pre ++ slash :: rest)); simpl in *; [exact IH | right; exact IH].
    + destruct (segments (pre ++ slash :: rest)); simpl in *; [contradiction | exact IH].
Qed.

Lemma in_segments (pre seg post : std_string) :
  no_slash seg = true ->
  post = [] \/ (exists t, post = slash :: t) ->
  In seg (segments (pre ++ slash :: seg ++ post)).
Proof.
  intros N P.
  assert (I : In seg (tl (segments (pre ++ slash :: seg ++ post)))).
  { apply segments_after_slash.
    destruct (segments_first seg post N P) as [r ->]. left. reflexivity. }
  destruct (segments (pre ++ slash :: seg ++ post)); simpl in I;
    [contradiction | right; exact I].
Qed.

Lemma dot_free_segment (p : Path) (pre seg post : std_string) :
  dot_free p = true ->
  Path.string p = pre ++ slash :: seg ++ post ->
  post = [] \/ (exists t, post = slash :: t) ->
  no_slash seg = true ->
  is_dot_segment seg = false.
Proof.
  intros F E P N. unfold dot_free in F. rewrite forallb_forall in F.
  apply negb_true_iff. apply F. rewrite E. apply in_segments; assumption.
Qed.

Lemma get_skipn (s : std_string) (i : Z) :
  0 <= i < str.size s ->
  skipn (Z.to_nat i) s = str.get s i :: skipn (Z.to_nat (i + 1)) s.
Proof.
  intro R. unfold str.size in R. unfold str.get.
  replace (Z.to_nat (i + 1)) with (S (Z.to_nat i)) by lia.
  apply skipn_nth_cons. lia.
Qed.

Lemma skipn_past (s : std_string) (i : Z) :
  str.size s <= i -> skipn (Z.to_nat i) s = [].
Proof.
  intro R. unfold str.size in R. apply skipn_all2. lia.
Qed.

Lemma is_char_get (s : std_string) (i : Z) (c : ascii) :
  is_char s i c = true -> str.get s i = c.
Proof. unfold is_char. apply Ascii.eqb_eq. Qed.

(** A dot right after a separator, at index [i]. *)
Lemma split_at_dot (s : std_string) (i : Z) :
  1 <= i < str.size s ->
  is_char s (i - 1) slash = true ->
  str.get s i = dot ->
  s = firstn (Z.to_nat (i - 1)) s ++ slash :: dot :: skipn (Z.to_nat (i + 1)) s.
Proof.
  intros R A B.
  rewrite <- (firstn_skipn (Z.to_nat (i - 1)) s) at 1. f_equal.
  rewrite get_skipn by lia. rewrite (is_char_get _ _ _ A).
  replace (i - 1 + 1) with i by lia.
  rewrite get_skipn by lia. rewrite B. reflexivity.
Qed.

Section DotFree.

Variable p : Path.
Variable i : Z.

Hypothesis free : dot_free p = true.
Hypothesis range : 1 <= i < str.size (Path.string p).
Hypothesis after_slash : is_char (Path.string p) (i - 1) slash = true.
Hypothesis at_dot : str.get (Path.string p) i = dot.


Lemma not_dot_slash :
  i < str.size (Path.string p) - 1 -> is_char (Path.string p) (i + 1) slash = true -> False.
Proof.
  intros L C.
  assert (E := split_at_dot (Path.string p) i range after_slash at_dot).
  rewrite (get_skipn (Path.string p) (i + 1)) in E by lia.
  rewrite (is_char_get _ _ _ C) in E.
  assert (D := dot_free_segment p _ [dot] _ free E
                 (or_intror (ex_intro _ _ eq_refl)) eq_refl).
  discriminate D.
Qed.

Lemma not_dot_end : i = str.size (Path.string p) - 1 -> False.
Proof.
  intros L.
  assert (E := split_at_dot (Path.string p) i range after_slash at_dot).
  rewrite (skipn_past (Path.string p) (i + 1)) in E by lia.
  assert (D := dot_free_segment p _ [dot] [] free E (or_introl eq_refl) eq_refl).
  discriminate D.
Qed.

Lemma not_dotdot_slash :
  i < str.size (Path.string p) - 2 ->
  is_char (Path.string p) (i + 1) dot = true -> is_char (Path.string p) (i + 2) slash = true -> False.
Proof.
  intros L C1 C2.
  assert (E := split_at_dot (Path.string p) i range after_slash at_dot).
  rewrite (get_skipn (Path.string p) (i + 1)) in E by lia.
  rewrite (is_char_get _ _ _ C1) in E.
  replace (i + 1 + 1) with (i + 2) in E by lia.
  rewrite (get_skipn (Path.string p) (i + 2)) in E by lia.
  rewrite (is_char_get _ _ _ C2) in E.
  assert (D := dot_free_segment p _ [dot; dot] _ free E
                 (or_intror (ex_intro _ _ eq_refl)) eq_refl).
  discriminate D.
Qed.

Lemma not_dotdot_end :
  i = str.size (Path.string p) - 2 -> is_char (Path.string p) (i + 1) dot = true -> False.
Proof.
  intros L C1.
  assert (E := split_at_dot (Path.string p) i range after_slash at_dot).
  rewrite (get_skipn (Path.string p) (i + 1)) in E by lia.
  rewrite (is_char_get _ _ _ C1) in E.
  rewrite (skipn_past (Path.string p) (i + 1 + 1)) in E by lia.
  assert (D := dot_free_segment p _ [dot; dot] [] free E (or_introl eq_refl) eq_refl).
  discriminate D.
Qed.

End DotFree.

Lemma wrap_small (z : Z) : 0 <= z <= str.npos -> size_t.wrap z = z.
Proof.
  intro R. unfold size_t.wrap. apply Z.mod_small.
  unfold str.npos in R. lia.
Qed.

Lemma npos_positive : 0 < str.npos.
Proof. reflexivity. Qed.

(** One turn of the loop on a path without dot segments: the string is
    left alone and the scan moves on. *)
Lemma canonical_loop_step (p : Path) (fuel : nat) (pos : Z) :
  dot_free p = true ->
  str.size (Path.string p) < str.npos ->
  1 <= pos ->
  canonical_loop (S fuel) (Path.string p) pos
  = if str.find (Path.string p) dot pos =? str.npos then Ret (Path.string p)
    else canonical_loop fuel (Path.string p)
           (str.find (Path.string p) dot pos + 1).
Proof.
  intros F B P. cbn [canonical_loop].
  set (s := Path.string p) in *.
  destruct (find_spec s dot pos ltac:(lia)) as [E | [R D]].
  - rewrite E. reflexivity.
  - set (i := str.find s dot pos) in *.
    destruct (i =? str.npos); [reflexivity|].
    rewrite !(wrap_small (i - 1)), !(wrap_small (i + 1)), !(wrap_small (i + 2)),
            !(wrap_small (str.size s - 1)), !(wrap_small (str.size s - 2)) by lia.
    assert (R1 : 1 <= i < str.size s) by lia.
    destruct (is_char s (i - 1) slash) eqn:A.
    + destruct (i <? str.size s - 1) eqn:L1.
      * apply Z.ltb_lt in L1.
        destruct (is_char s (i + 1) slash) eqn:C1;
          [exfalso; exact (not_dot_slash p i F R1 A D L1 C1)|].
        destruct (i =? str.size s - 1) eqn:L2; [apply Z.eqb_eq in L2; lia|].
        destruct (i <? str.size s - 2) eqn:L3.
        -- apply Z.ltb_lt in L3.
           destruct (is_char s (i + 1) dot) eqn:C2.
           ++ destruct (is_char s (i + 2) slash) eqn:C3;
                [exfalso; exact (not_dotdot_slash p i F R1 A D L3 C2 C3)|].
              destruct (i =? str.size s - 2) eqn:L4; [apply Z.eqb_eq in L4; lia|].
              reflexivity.
           ++ destruct (i =? str.size s - 2); reflexivity.
        -- destruct (i =? str.size s - 2) eqn:L4; [|reflexivity].
           apply Z.eqb_eq in L4.
           destruct (is_char s (i + 1) dot) eqn:C2;
             [exfalso; exact (not_dotdot_end p i F R1 A D L4 C2) | reflexivity].
      * apply Z.ltb_ge in L1.
        destruct (i =? str.size s - 1) eqn:L2;
          [apply Z.eqb_eq in L2; exfalso; exact (not_dot_end p i F R1 A D L2)|].
        apply Z.eqb_neq in L2. lia.
    + destruct (i <? str.size s - 2); destruct (i =? str.size s - 2); reflexivity.
Qed.

Lemma canonical_loop_dot_free (p : Path) (fuel : nat) (pos : Z) :
  dot_free p = true ->
  str.size (Path.string p) < str.npos ->
  1 <= pos ->
  (Z.to_nat (str.size (Path.string p) + 1 - pos) < fuel)%nat ->
  canonical_loop fuel (Path.string p) pos = Ret (Path.string p).
Proof.
  intros F B. revert pos. induction fuel as [|fuel IH]; intros pos P M.
  - lia.
  - rewrite canonical_loop_step by assumption.
    destruct (find_spec (Path.string p) dot pos ltac:(lia)) as [E | [R D]].
    + rewrite E. reflexivity.
    + destruct (str.find (Path.string p) dot pos =? str.npos); [reflexivity|].
      apply IH; lia.
Qed.

Lemma complete_absolute {W : Type} {H : Host W} (w : W) (p : Path) :
  is_absolute p = true -> complete w p = Ret p.
Proof.
  unfold is_absolute, complete, Path.size, Path.string.
  destruct (Path.s p) as [|c t]; [discriminate|].
  intro A. unfold str.size, str.get. simpl nth. rewrite A.
  destruct (0 <? Z.of_nat (List.length (c :: t))) eqn:L; [reflexivity|].
  apply Z.ltb_ge in L. simpl List.length in L. lia.
Qed.

Lemma canonical_dot_free {W : Type} {H : Host W} (w : W) (p : Path) (fuel : nat) :
  is_absolute p = true ->
  dot_free p = true ->
  str.size (Path.string p) < str.npos ->
  (List.length (Path.string p) < fuel)%nat ->
  canonical fuel w p = Ret p.
Proof.
  intros A F B L. unfold canonical.
  rewrite complete_absolute by exact A. cbn [bind]. unfold forward_slashes.
  rewrite canonical_loop_dot_free; try assumption; try lia.
  - destruct p. reflexivity.
  - unfold str.size. lia.
Qed.

Lemma str_eqb_refl (a : std_string) : str.eqb a a = true.
Proof.
  unfold str.eqb. destruct (list_eq_dec ascii_dec a a) as [_|N];
    [reflexivity | exfalso; apply N; reflexivity].
Qed.

(** C9. For an absolute path without [.] and [..] segments (and of a
    length a [size_t] can hold), given fuel beyond its length,
    [canonical] returns the path itself; canonicalizing the result again
    gives the same result, byte for byte and under [operator==]. *)
Theorem canonical_idempotent_on_dot_free :
  forall (W : Type) (H : Host W) (w : W) (p : Path) (fuel : nat),
    is_absolute p = true ->
    dot_free p = true ->
    str.size (Path.string p) < str.npos ->
    (List.length (Path.string p) < fuel)%nat ->
    canonical fuel w p = Ret p
    /\ (c <- canonical fuel w p ;; canonical fuel w c) = canonical fuel w p
    /\ (c <- canonical fuel w p ;;
        cc <- canonical fuel w c ;;
        Path_eq fuel w cc c) = Ret true.
Proof.
  intros W H w p fuel A F B L.
  assert (C : canonical fuel w p = Ret p) by (apply canonical_dot_free; assumption).
  split; [exact C|]. split.
  - rewrite C. cbn [bind]. exact C.
  - rewrite C. cbn [bind]. rewrite C. cbn [bind].
    unfold Path_eq. rewrite C. cbn [bind].
    unfold str.strcmp_eq0. rewrite str_eqb_refl. reflexivity.
Qed.

(** C9 at [/home/u/x]. *)
Lemma canonical_idempotent_witness :
  canonical 16 trees.bare (path "/home/u/x") = Ret (path "/home/u/x")
  /\ (c <- canonical 16 trees.bare (path "/home/u/x") ;;
      canonical 16 trees.bare c)
     = canonical 16 trees.bare (path "/home/u/x")
  /\ (c <- canonical 16 trees.bare (path "/home/u/x") ;;
      cc <- canonical 16 trees.bare c ;;
      Path_eq 16 trees.bare cc c) = Ret true.
Proof.
  apply (canonical_idempotent_on_dot_free
           memfs.t memfs_host trees.bare (path "/home/u/x") 16).
  - reflexivity.
  - reflexivity.
  - reflexivity.
  - vm_compute. lia.
Defined.

(** ** Joining paths *)

Lemma back_undefined_iff (s : std_string) :
  str.back s = Undefined <-> s = [].
Proof.
  destruct s; simpl; split; intro E; try reflexivity; discriminate E.
Qed.

Lemma back_returns_iff (s : std_string) :
  returns (str.back s) <-> str.empty s = false.
Proof.
  unfold returns. destruct s; simpl; split.
  - intros [a E]. discriminate E.
  - intro E. discriminate E.
  - reflexivity.
  - intros _. eexists. reflexivity.
Qed.

Lemma div_Ret_or_Undefined (a b : Path) :
  (str.back (Path.s a) = Undefined /\ Path.div a b = Undefined)
  \/ (exists c r, str.back (Path.s a) = Ret c /\ Path.div a b = Ret r).
Proof.
  unfold Path.div. destruct (Path.s a) as [|c t]; simpl.
  - left. split; reflexivity.
  - right. exists (last t c). destruct (is_slash (last t c)); eauto.
Qed.

Lemma div_assign_Ret_or_Undefined (a b : Path) :
  (str.back (Path.s a) = Undefined /\ Path.div_assign a b = Undefined)
  \/ (exists c r, str.back (Path.s a) = Ret c /\ Path.div_assign a b = Ret r).
Proof.
  unfold Path.div_assign. destruct (Path.s a) as [|c t]; simpl.
  - left. split; reflexivity.
  - right. exists (last t c). destruct (is_slash (last t c)); eauto.
Qed.

(** C10. [operator/] and [operator/=] read the last character of the
    left operand first, whatever it is: on an empty left operand the read
    is out of range and the join is undefined, on a non-empty one the join
    returns. So the out-of-range branch is unreachable exactly when the
    left operand is non-empty. *)
Theorem join_defined_iff_left_nonempty :
  forall a b : Path,
    (Path.div a b = Undefined <-> Path.empty a = true)
    /\ (returns (Path.div a b) <-> Path.empty a = false)
    /\ (Path.div_assign a b = Undefined <-> Path.empty a = true)
    /\ (returns (Path.div_assign a b) <-> Path.empty a = false).
Proof.
  intros a b. unfold Path.empty, returns.
  destruct (div_Ret_or_Undefined a b) as [[Hb Hd] | (c & r & Hb & Hd)];
  destruct (div_assign_Ret_or_Undefined a b) as [[Hb' Ha] | (c' & r' & Hb' & Ha)];
  rewrite Hd, Ha; clear Hd Ha;
  destruct (Path.s a) as [|x t]; simpl in *; try discriminate;
  repeat split; intros; try reflexivity; try discriminate; eauto;
  match goal with E : ex _ |- _ => destruct E as [? E]; discriminate E end.
Qed.

(** ** stem, extension, filename *)

Lemma last_index_bound (c : ascii) (l : std_string) (k : nat) :
  str.last_index c l = Some k -> (k < List.length l)%nat.
Proof.
  revert k. induction l as [|x t IH]; intros k E; simpl in E.
  - discriminate E.
  - destruct (str.last_index c t) as [j|].
    + injection E as <-. specialize (IH j eq_refl). simpl. lia.
    + destruct (Ascii.eqb x c); [|discriminate E].
      injection E as <-. simpl. lia.
Qed.

Lemma rfind_spec (s : std_string) (c : ascii) (pos : Z) :
  str.rfind s c pos = str.npos \/ 0 <= str.rfind s c pos < str.size s.
Proof.
  unfold str.rfind. destruct (str.size s =? 0); [left; reflexivity|].
  destruct (str.last_index c _) as [k|] eqn:E; [right | left; reflexivity].
  apply last_index_bound in E. rewrite length_firstn in E.
  unfold str.size. lia.
Qed.

Lemma substr_prefix (s : std_string) (i : Z) :
  0 <= i <= str.size s -> str.substr s 0 i = Ret (firstn (Z.to_nat i) s).
Proof.
  intro R. unfold str.substr.
  destruct (str.size s <? 0) eqn:L; [apply Z.ltb_lt in L; unfold str.size in L; lia|].
  rewrite Z.sub_0_r, Z.min_l by lia. reflexivity.
Qed.

Lemma substr_suffix (s : std_string) (i : Z) :
  0 <= i <= str.size s -> str.size s < str.npos ->
  str.substr_from s i = Ret (skipn (Z.to_nat i) s).
Proof.
  intros R B. unfold str.substr_from, str.substr.
  destruct (str.size s <? i) eqn:L; [apply Z.ltb_lt in L; lia|].
  rewrite Z.min_r by lia. f_equal. apply firstn_all2.
  rewrite length_skipn. unfold str.size. lia.
Qed.

Lemma filename_returns (p : Path) :
  str.size (Path.s p) < str.npos -> returns (Path.filename p).
Proof.
  intro B. unfold Path.filename, last_slash, returns.
  destruct (rfind_spec (Path.s p) slash str.npos) as [E | R].
  - rewrite E. eexists. reflexivity.
  - destruct (_ =? str.npos); [eexists; reflexivity|].
    rewrite wrap_small by lia. rewrite substr_suffix by lia.
    eexists. reflexivity.
Qed.

(** What does hold on the code: stem and extension cut the whole path at
    its last dot, so together they give the path back, directory part
    included. *)
Lemma stem_plus_extension (p : Path) :
  str.size (Path.s p) < str.npos ->
  exists a b,
    Path.stem p = Ret a /\ Path.extension p = Ret b /\ Path.plus a b = p.
Proof.
  intro B. destruct (filename_returns p B) as [st F].
  unfold Path.stem, Path.extension. rewrite F. cbn [bind].
  destruct (rfind_spec (Path.s p) dot str.npos) as [E | R].
  - rewrite E. do 2 eexists. repeat split.
    unfold Path.plus. simpl. rewrite app_nil_r. destruct p. reflexivity.
  - destruct (_ =? str.npos).
    + do 2 eexists. repeat split.
      unfold Path.plus. simpl. rewrite app_nil_r. destruct p. reflexivity.
    + rewrite substr_prefix, substr_suffix by lia. cbn [bind].
      do 2 eexists. repeat split.
      unfold Path.plus. simpl. rewrite firstn_skipn. destruct p. reflexivity.
Qed.

(** C8. The claim fails on the code at [/x/report.tar], whose filename
    [report.tar] holds one dot: [stem] cuts the whole path, not the
    filename it has just computed, so stem and extension put together give
    [/x/report.tar] and not [report.tar]; the two differ as strings and
    under [operator==]. *)
Theorem stem_extension_give_whole_path :
  Path.filename (path "/x/report.tar") = Ret (path "report.tar")
  /\ count_occ ascii_dec (lit "report.tar") dot = 1%nat
  /\ Path.stem (path "/x/report.tar") = Ret (path "/x/report")
  /\ Path.extension (path "/x/report.tar") = Ret (path ".tar")
  /\ Path.plus (path "/x/report") (path ".tar") = path "/x/report.tar"
  /\ path "/x/report.tar" <> path "report.tar"
  /\ (forall fuel,
        Path_eq (S (S fuel)) trees.bare (path "/x/report.tar") (path "report.tar")
        = Ret false).
Proof.
  repeat split; try (vm_compute; reflexivity).
  intro E. discriminate E.
Qed.

(** ** canonical on concrete paths *)

(** C2. The claim fails on the code. For a lone [.] segment between
    separators the loop searches back from [pos-2] and erases from the
    separator it finds there, so the segment before the dot goes too:
    [/a/b/./c] becomes [/a/c], and with working directory [/home/u] the
    path [./x] becomes [/home/x], which is not what [/home/u/x]
    canonicalizes to: [operator==] answers false. *)
Theorem canonical_dot_erases_previous_segment :
  forall fuel,
    canonical (S (S fuel)) trees.bare (path "./x") = Ret (path "/home/x")
    /\ canonical (S (S fuel)) trees.bare (path "/home/u/x") = Ret (path "/home/u/x")
    /\ Path_eq (S (S fuel)) trees.bare (path "./x") (path "/home/u/x") = Ret false
    /\ canonical (S (S fuel)) trees.bare (path "/a/b/./c") = Ret (path "/a/c").
Proof.
  intro fuel. repeat split; vm_compute; reflexivity.
Qed.

Section AnyHost.

Context {W : Type} {H : Host W}.

Lemma canonical_loop_slash_dot_slash (fuel : nat) :
  canonical_loop fuel (lit "/./x") 1 = Timeout.
Proof.
  induction fuel as [|fuel IH].
  - reflexivity.
  - rewrite <- IH. cbn [canonical_loop].
    generalize (canonical_loop fuel). intro next.
    vm_compute. reflexivity.
Qed.

(** The scan never ends on a path that starts with [/./]. *)
Lemma canonical_slash_dot_slash (fuel : nat) (w : W) :
  canonical fuel w (path "/./x") = Timeout.
Proof.
  unfold canonical.
  change (complete w (path "/./x")) with (Ret (path "/./x")).
  cbn [bind]. unfold forward_slashes, Path.string, path, Path.s.
  rewrite canonical_loop_slash_dot_slash. reflexivity.
Qed.

End AnyHost.

(** C3. The claim fails on the code. After an erase the scan goes on from
    the old [pos], beyond the text that moved down, so the second of two
    consecutive [..] segments is never seen: [/a/b/c/../../d] comes back as
    [/a/b/../d]. [/..] comes back as the empty path, which is not
    absolute, and on [/./x] the scan does not end for any fuel. *)
Theorem canonical_leaves_dot_segments :
  forall fuel,
    canonical (S (S fuel)) trees.bare (path "/a/b/c/../../d") = Ret (path "/a/b/../d")
    /\ dot_free (path "/a/b/../d") = false
    /\ canonical (S fuel) trees.bare (path "/..") = Ret (path "")
    /\ is_absolute (path "") = false
    /\ canonical fuel trees.bare (path "/./x") = Timeout.
Proof.
  intro fuel.
  split; [vm_compute; reflexivity|].
  split; [reflexivity|].
  split; [vm_compute; reflexivity|].
  split; [reflexivity|].
  apply canonical_slash_dot_slash.
Qed.

(** ** remove_all: pending directories *)

Section Pending.

Context {W : Type} {H : Host W}.

Lemma std_move_past_the_end (f : frame) (src dst : list frame) :
  std_move (f :: src) dst (List.length dst) = Undefined.
Proof.
  simpl. rewrite Nat.ltb_irrefl. reflexivity.
Qed.

(** The pending queue keeps its length when its frames are moved from. *)
Lemma moved_from_keeps_pending (moredirs : list frame) :
  List.length (map moved_from moredirs) = List.length moredirs.
Proof. apply length_map. Qed.

(** Whenever the [for] loop of a pass ends with a directory pending, the
    pass moves the pending frames to [begin(dirstack) + dirstack.size()]
    of the vector it has just resized: a write past its end. *)
Lemma pass_with_pending_is_undefined
    (fuel cf : nat) (f0 : frame) (rest moredirs : list frame) (w w' : W)
    (it : directory_iterator) (f : frame) (pending : list frame) :
  for_entries (S fuel) cf (fst (last rest f0)) moredirs w
    = Ret (Done it (f :: pending), w') ->
  while_dirstack (S fuel) cf (f0 :: rest) moredirs w = Undefined.
Proof.
  intro E. cbn [while_dirstack]. unfold bindM at 1. rewrite E.
  unfold bindM, lift, reading. rewrite std_move_past_the_end. reflexivity.
Qed.

End Pending.


(** C1. The claim fails on the code. On [/tmp/t] holding [a.txt] and
    [sub/b.txt], with every delete allowed, the first pass unlinks
    [a.txt] and queues [sub]; the queued frame is then moved past the end
    of the resized stack, which is undefined behaviour. No fuel makes
    [remove_all] return, and at that point [/tmp/t], [/tmp/t/sub] and
    [/tmp/t/sub/b.txt] still exist. *)
Theorem remove_all_nested_never_returns :
  forall fuel,
    (remove_all fuel (path "/tmp/t") trees.nested = Timeout
     \/ remove_all fuel (path "/tmp/t") trees.nested = Undefined)
    /\ remove_all (5 + fuel) (path "/tmp/t") trees.nested = Undefined
    /\ (exists it0 it sub,
          open_iterator (path "/tmp/t") trees.nested = Ret (it0, trees.nested)
          /\ for_entries (5 + fuel) (2 + fuel) it0 [] trees.nested
             = Ret (Done it [(sub, path "/tmp/t/sub")], trees.nested_without_a))
    /\ exists_ (path "/tmp/t") trees.nested_without_a = Ret (true, trees.nested_without_a)
    /\ exists_ (path "/tmp/t/a.txt") trees.nested_without_a = Ret (false, trees.nested_without_a)
    /\ exists_ (path "/tmp/t/sub") trees.nested_without_a = Ret (true, trees.nested_without_a)
    /\ exists_ (path "/tmp/t/sub/b.txt") trees.nested_without_a = Ret (true, trees.nested_without_a).
Proof.
  intro fuel. split; [|split; [|split]].
  - do 5 (destruct fuel as [|fuel]; [left; vm_compute; reflexivity|]).
    right. vm_compute. reflexivity.
  - vm_compute. reflexivity.
  - do 3 eexists. split; [vm_compute; reflexivity | vm_compute; reflexivity].
  - repeat split; vm_compute; reflexivity.
Qed.

(** C4. The claim fails on the code. On a directory holding one empty
    subdirectory the loop does not reach an empty stack: the pass that
    queues the subdirectory resizes the stack and then moves the queue
    past its end (undefined behaviour), and the queue is never cleared.
    For every fuel the call is out of fuel or undefined; it never returns
    a boolean. A directory without subdirectories is removed in one
    pass. *)
Theorem remove_all_one_subdir_never_returns :
  forall fuel,
    (remove_all fuel (path "/tmp/d") trees.one_subdir = Timeout
     \/ remove_all fuel (path "/tmp/d") trees.one_subdir = Undefined)
    /\ remove_all (4 + fuel) (path "/tmp/d") trees.one_subdir = Undefined
    /\ remove_all (5 + fuel) (path "/tmp/f") trees.flat
       = Ret (true, memfs.mk trees.home [(lit "/tmp", memfs.folder)]).
Proof.
  intro fuel. split; [|split].
  - do 4 (destruct fuel as [|fuel]; [left; vm_compute; reflexivity|]).
    right. vm_compute. reflexivity.
  - vm_compute. reflexivity.
  - vm_compute. reflexivity.
Qed.

(** C5. The claim fails on the code for the directory case. The result of
    [remove(dir.second)] is dropped: on an empty directory that [rmdir]
    refuses, [remove_all] answers true and the directory is still there.
    A file that [unlink] refuses does end the call with false, before the
    next entry is touched. Same loop as in C1 and C4, another defect. *)
Theorem remove_all_drops_failed_rmdir :
  forall fuel,
    rmdir trees.pinned_dir (lit "/tmp/e") = (false, trees.pinned_dir)
    /\ remove_all (3 + fuel) (path "/tmp/e") trees.pinned_dir
       = Ret (true, trees.pinned_dir)
    /\ exists_ (path "/tmp/e") trees.pinned_dir = Ret (true, trees.pinned_dir)
    /\ unlink trees.pinned_file (lit "/tmp/g/keep") = (false, trees.pinned_file)
    /\ remove_all (3 + fuel) (path "/tmp/g") trees.pinned_file
       = Ret (false, trees.pinned_file).
Proof.
  intro fuel. repeat split; vm_compute; reflexivity.
Qed.

(** ** create_directory *)


(** C7 as stated does not hold: [mkdir] succeeds on [/tmp/new] and fails on
    the existing [/tmp/t], and [create_directory] hands back the same
    (empty) value both times. *)
Lemma create_directory_reports_nothing :
  ~ reports_mkdir memfs.t memfs_host.
Proof.
  intros [as_bool R].
  assert (A : as_bool tt = true).
  { apply (R trees.nested (snd (mkdir trees.nested (lit "/tmp/new") mode_0755))
             (path "/tmp/new") tt).
    vm_compute. reflexivity. }
  assert (B : as_bool tt = false).
  { apply (R trees.nested trees.nested (path "/tmp/t") tt).
    vm_compute. reflexivity. }
  rewrite A in B. discriminate B.
Qed.

(** C7, amended. [create_directory] makes one [mkdir] call, with mode
    0755 on the path's C string: the file system afterwards is the one
    that call leaves. It returns nothing; whether the call succeeded is
    not reported. *)
Theorem create_directory_is_one_mkdir :
  forall (W : Type) (H : Host W) (w : W) (p : Path),
    create_directory p w = Ret (tt, snd (mkdir w (Path.c_str p) mode_0755)).
Proof.
  intros W H w p.
  unfold create_directory, bindM, sys, ret.
  destruct (mkdir w (Path.c_str p) mode_0755) as [ok w']. reflexivity.
Qed.

(** ** Which calls raise *)

Section Raising.

Context {W : Type} {H : Host W}.

Lemma exists_returns (p : Path) (w : W) :
  exists b, exists_ p w = Ret (b, w).
Proof.
  unfold exists_, reading. destruct (lstat w (Path.c_str p)); eexists; reflexivity.
Qed.

Lemma is_regular_file_returns (p : Path) (w : W) :
  exists b, is_regular_file p w = Ret (b, w).
Proof.
  unfold is_regular_file, reading.
  destruct (lstat w (Path.c_str p)) as [[]|]; eexists; reflexivity.
Qed.

Lemma is_directory_returns (p : Path) (w : W) :
  exists b, is_directory p w = Ret (b, w).
Proof.
  unfold is_directory, reading.
  destruct (lstat w (Path.c_str p)) as [[]|]; eexists; reflexivity.
Qed.

Lemma is_directory_spec (p : Path) (w : W) :
  is_directory p w
  = Ret (match lstat w (Path.c_str p) with
         | Some S_IFDIR => true
         | _ => false
         end, w).
Proof.
  unfold is_directory, reading.
  destruct (lstat w (Path.c_str p)) as [[]|]; reflexivity.
Qed.

Lemma remove_returns (p : Path) (w : W) :
  exists b w', remove p w = Ret (b, w').
Proof.
  unfold remove, bindM. rewrite is_directory_spec.
  destruct (lstat w (Path.c_str p)) as [[]|]; unfold sys;
    match goal with |- context [Ret (?f w ?x)] => destruct (f w x) end;
    do 2 eexists; reflexivity.
Qed.

Lemma remove_all_not_directory (fuel : nat) (p : Path) (w : W) :
  lstat w (Path.c_str p) <> Some S_IFDIR ->
  remove_all fuel p w = Ret (unlink w (Path.c_str p)).
Proof.
  intro N. unfold remove_all, bindM. rewrite is_directory_spec.
  destruct (lstat w (Path.c_str p)) as [[]|]; try reflexivity.
  exfalso. apply N. reflexivity.
Qed.

Lemma remove_all_cannot_open (fuel : nat) (p : Path) (w : W) :
  lstat w (Path.c_str p) = Some S_IFDIR ->
  opendir w (Path.c_str p) = None ->
  remove_all fuel p w
  = Throw ("cannot open directory " ++ string_of_list_ascii (Path.string p)).
Proof.
  intros D O. unfold remove_all, bindM. rewrite is_directory_spec, D.
  cbn [negb]. unfold open_iterator, reading.
  unfold Path.c_str, Path.string in *. rewrite O. reflexivity.
Qed.

End Raising.

(** C6 as stated does not hold: [/tmp/locked] is a directory that cannot
    be opened, and [remove_all] lets the iterator's exception through. *)
Lemma remove_all_raises_on_closed_directory :
  is_directory (path "/tmp/locked") trees.closed_dir
    = Ret (true, trees.closed_dir)
  /\ remove_all 8 (path "/tmp/locked") trees.closed_dir
     = Throw "cannot open directory /tmp/locked"
  /\ ~ returns (remove_all 8 (path "/tmp/locked") trees.closed_dir).
Proof.
  split; [|split]; try (vm_compute; reflexivity).
  intros [r E]. vm_compute in E. discriminate E.
Qed.

(** C6, amended. [exists], [is_directory], [is_regular_file] and [remove]
    never raise: each returns a boolean for every path. [create_directory]
    never raises either and returns nothing. [remove_all] returns the
    result of one [unlink] when the path is not a directory, and raises
    the iterator's failure when the path is a directory that cannot be
    opened for enumeration. *)
Theorem boolean_queries_return_and_remove_all_may_raise :
  forall (W : Type) (H : Host W) (w : W) (p : Path) (fuel : nat),
    (exists b, exists_ p w = Ret (b, w))
    /\ (exists b, is_directory p w = Ret (b, w))
    /\ (exists b, is_regular_file p w = Ret (b, w))
    /\ (exists b w', remove p w = Ret (b, w'))
    /\ (exists w', create_directory p w = Ret (tt, w'))
    /\ (lstat w (Path.c_str p) <> Some S_IFDIR ->
        remove_all fuel p w = Ret (unlink w (Path.c_str p)))
    /\ (lstat w (Path.c_str p) = Some S_IFDIR ->
        opendir w (Path.c_str p) = None ->
        remove_all fuel p w
        = Throw ("cannot open directory "
                 ++ string_of_list_ascii (Path.string p))).
Proof.
  intros W H w p fuel.
  split; [apply exists_returns|].
  split; [apply is_directory_returns|].
  split; [apply is_regular_file_returns|].
  split; [apply remove_returns|].
  split.
  { unfold create_directory, bindM, sys, ret.
    destruct (mkdir w (Path.c_str p) mode_0755) as [ok w'].
    exists w'. reflexivity. }
  split; [apply remove_all_not_directory | apply remove_all_cannot_open].
Qed.

(** The amended C6 at a plain file and at the closed directory. *)
Lemma boolean_queries_witness :
  remove_all 8 (path "/tmp/t/a.txt") trees.nested
    = Ret (unlink trees.nested (lit "/tmp/t/a.txt"))
  /\ remove_all 8 (path "/tmp/locked") trees.closed_dir
     = Throw "cannot open directory /tmp/locked".
Proof.
  split.
  - apply (boolean_queries_return_and_remove_all_may_raise
             memfs.t memfs_host trees.nested (path "/tmp/t/a.txt") 8).
    vm_compute. intro E. discriminate E.
  - apply (boolean_queries_return_and_remove_all_may_raise
             memfs.t memfs_host trees.closed_dir (path "/tmp/locked") 8);
      vm_compute; reflexivity.
Defined.

(** * Further properties *)

(** ** Strings: the last occurrence of a character *)

Lemma last_index_lacks (c : ascii) (s : std_string) :
  lacks c s = true -> str.last_index c s = None.
Proof.
  induction s as [|x t IH]; simpl; [reflexivity|].
  intro L. apply andb_true_iff in L. destruct L as [X L].
  rewrite (IH L). apply negb_true_iff in X. rewrite X. reflexivity.
Qed.

Lemma last_index_none_lacks (c : ascii) (s : std_string) :
  str.last_index c s = None -> lacks c s = true.
Proof.
  induction s as [|x t IH]; simpl; [reflexivity|].
  destruct (str.last_index c t); [discriminate|].
  destruct (Ascii.eqb x c); [discriminate|].
  intros _. simpl. apply IH. reflexivity.
Qed.

Lemma last_index_app (c : ascii) (a r : std_string) :
  lacks c r = true ->
  str.last_index c (a ++ c :: r) = Some (List.length a).
Proof.
  intro L. induction a as [|x a IH]; simpl.
  - rewrite (last_index_lacks c r L). rewrite Ascii.eqb_refl. reflexivity.
  - rewrite IH. reflexivity.
Qed.

(** The last [c] splits the string: nothing after it is a [c]. *)
Lemma last_index_split (c : ascii) (s : std_string) (k : nat) :
  str.last_index c s = Some k ->
  s = firstn k s ++ c :: skipn (S k) s /\ lacks c (skipn (S k) s) = true.
Proof.
  revert k. induction s as [|x t IH]; simpl; intros k E; [discriminate|].
  destruct (str.last_index c t) as [j|] eqn:T.
  - injection E as <-. destruct (IH j eq_refl) as [S1 S2].
    simpl. split; [f_equal; exact S1 | exact S2].
  - destruct (Ascii.eqb x c) eqn:X; [|discriminate].
    injection E as <-. apply Ascii.eqb_eq in X. subst x. simpl.
    split; [reflexivity | apply last_index_none_lacks; exact T].
Qed.

(** [rfind] from [npos] looks at the whole string. *)
Lemma rfind_npos (s : std_string) (c : ascii) :
  str.size s < str.npos ->
  str.rfind s c str.npos
  = match str.last_index c s with
    | Some k => Z.of_nat k
    | None => str.npos
    end.
Proof.
  intro B. unfold str.rfind.
  destruct (str.size s =? 0) eqn:Z0.
  - apply Z.eqb_eq in Z0. unfold str.size in Z0.
    destruct s; [reflexivity | simpl in Z0; lia].
  - apply Z.eqb_neq in Z0. rewrite Z.min_r by lia.
    rewrite firstn_all2; [reflexivity|]. unfold str.size in *. lia.
Qed.

Lemma rfind_npos_found (s : std_string) (c : ascii) (k : nat) :
  str.size s < str.npos ->
  str.last_index c s = Some k ->
  str.rfind s c str.npos = Z.of_nat k /\ (Z.of_nat k =? str.npos) = false
  /\ (k < List.length s)%nat.
Proof.
  intros B E. rewrite rfind_npos by exact B. rewrite E.
  assert (K := last_index_bound c s k E). unfold str.size in B.
  split; [reflexivity|]. split; [apply Z.eqb_neq; lia | exact K].
Qed.


(** ** Path: join, parent_path, filename *)

Lemma lacks_firstn (c : ascii) (n : nat) (s : std_string) :
  lacks c s = true -> lacks c (firstn n s) = true.
Proof.
  revert n. induction s as [|x t IH]; intros [|n] L; simpl in *; try reflexivity.
  apply andb_true_iff in L. destruct L as [X L]. rewrite X. simpl. apply IH, L.
Qed.

Lemma rfind_lacks (s : std_string) (c : ascii) (pos : Z) :
  lacks c s = true -> str.rfind s c pos = str.npos.
Proof.
  intro L. unfold str.rfind. destruct (str.size s =? 0); [reflexivity|].
  rewrite last_index_lacks; [reflexivity | apply lacks_firstn, L].
Qed.

Lemma size_app (a b : std_string) : str.size (a ++ b) = str.size a + str.size b.
Proof. unfold str.size. rewrite length_app. lia. Qed.

Lemma size_nonneg (s : std_string) : 0 <= str.size s.
Proof. unfold str.size. lia. Qed.

Lemma erase_from_prefix (s : std_string) (i : Z) :
  0 <= i <= str.size s -> str.size s < str.npos ->
  str.erase_from s i = Ret (firstn (Z.to_nat i) s).
Proof.
  intros R B. unfold str.erase_from, str.erase.
  destruct (str.size s <? i) eqn:L; [apply Z.ltb_lt in L; lia|].
  rewrite Z.min_r by lia. rewrite skipn_all2, app_nil_r; [reflexivity|].
  unfold str.size in *. lia.
Qed.

Lemma firstn_length_app (a b : std_string) :
  firstn (List.length a) (a ++ b) = a.
Proof.
  rewrite firstn_app, Nat.sub_diag, firstn_all. simpl. apply app_nil_r.
Qed.

Lemma skipn_length_app (a b : std_string) :
  skipn (List.length a) (a ++ b) = b.
Proof.
  rewrite skipn_app, Nat.sub_diag, skipn_all. reflexivity.
Qed.

Lemma last_cons (t : std_string) (x d : ascii) : last (x :: t) d = last t x.
Proof.
  revert x d. induction t as [|y t IH]; intros x d; [reflexivity|].
  change (last (x :: y :: t) d) with (last (y :: t) d).
  rewrite (IH y d), (IH y x). reflexivity.
Qed.

(** A string that ends with a separator is a string followed by one. *)
Lemma ends_with_slash_split (s : std_string) :
  ends_with_slash s = true -> exists pre, s = pre ++ [slash].
Proof.
  destruct s as [|c t]; simpl; [discriminate|].
  intro E. apply Ascii.eqb_eq in E.
  exists (removelast (c :: t)). rewrite <- E, <- (last_cons t c zero).
  apply app_removelast_last. discriminate.
Qed.

(** The joined string, seen from its last separator. *)
Lemma div_shape (a c : Path) :
  Path.empty a = false ->
  exists pre,
    Path.div a c = Ret (Path.make (pre ++ slash :: Path.s c))
    /\ (if ends_with_slash (Path.s a) then Path.s a = pre ++ [slash]
        else Path.s a = pre).
Proof.
  unfold Path.empty, Path.div. destruct (Path.s a) as [|x t] eqn:A; [discriminate|].
  intros _. cbn [str.back bind].
  change (is_slash (last t x)) with (ends_with_slash (x :: t)).
  destruct (ends_with_slash (x :: t)) eqn:E.
  - destruct (ends_with_slash_split _ E) as [pre P]. exists pre.
    rewrite P. rewrite <- app_assoc. split; reflexivity.
  - exists (x :: t). split; reflexivity.
Qed.

Section Lexical.

Variables a c : Path.
Hypothesis a_not_empty : Path.empty a = false.
Hypothesis c_plain : no_slash (Path.s c) = true.
Hypothesis fits : str.size (Path.s a) + str.size (Path.s c) + 1 < str.npos.

Lemma filename_after_join :
  exists j, Path.div a c = Ret j /\ Path.filename j = Ret c.
Proof.
  destruct (div_shape a c a_not_empty) as [pre [D S]].
  eexists. split; [exact D|].
  assert (B : str.size (pre ++ slash :: Path.s c) < str.npos).
  { destruct (ends_with_slash (Path.s a)); rewrite S in fits;
      rewrite ?size_app in *; change (slash :: Path.s c) with ([slash] ++ Path.s c);
      rewrite ?size_app; change (str.size [slash]) with 1 in *; lia. }
  unfold Path.filename, last_slash. cbn [Path.s].
  destruct (rfind_npos_found _ slash (List.length pre) B
              (last_index_app slash pre (Path.s c) c_plain)) as [R [N K]].
  rewrite R, N. rewrite wrap_small by (unfold str.size in B; lia).
  rewrite substr_suffix by (unfold str.size in *; lia). cbn [bind].
  replace (Z.to_nat (Z.of_nat (List.length pre) + 1)) with (List.length (pre ++ [slash]))
    by (rewrite length_app; simpl; lia).
  change (pre ++ slash :: Path.s c) with (pre ++ [slash] ++ Path.s c).
  rewrite app_assoc, skipn_length_app. destruct c. reflexivity.
Qed.

Lemma parent_path_after_join :
  ends_with_slash (Path.s a) = false \/ Path.s a = [slash] ->
  exists j, Path.div a c = Ret j /\ Path.parent_path j = Ret a.
Proof.
  intro E.
  destruct (div_shape a c a_not_empty) as [pre [D S]].
  eexists. split; [exact D|].
  assert (B : str.size (pre ++ slash :: Path.s c) < str.npos).
  { destruct (ends_with_slash (Path.s a)); rewrite S in fits;
      rewrite ?size_app in *; change (slash :: Path.s c) with ([slash] ++ Path.s c);
      rewrite ?size_app; change (str.size [slash]) with 1 in *; lia. }
  unfold Path.parent_path, last_slash. cbn [Path.s].
  destruct (rfind_npos_found _ slash (List.length pre) B
              (last_index_app slash pre (Path.s c) c_plain)) as [R [N K]].
  rewrite R, N.
  destruct E as [E | E].
  - rewrite E in S. subst pre.
    assert (NE := a_not_empty). unfold Path.empty in NE.
    destruct (Path.s a) as [|x t] eqn:A; [discriminate NE|].
    change (Z.of_nat (List.length (x :: t)) =? 0) with false. cbv iota.
    rewrite substr_prefix by (rewrite size_app; unfold str.size; lia).
    cbn [bind]. rewrite Nat2Z.id, firstn_length_app.
    rewrite <- A. destruct a. reflexivity.
  - rewrite E in S. change (ends_with_slash [slash]) with true in S. cbv iota in S.
    assert (P : pre = []).
    { destruct pre as [|y pre]; [reflexivity|].
      destruct pre; simpl in S; discriminate S. }
    subst pre. simpl. destruct a as [sa]. simpl in E. subst sa. reflexivity.
Qed.

End Lexical.

(** X1. [filename] of a join gives back the right operand, when that
    holds no separator and the left operand is not empty. *)
Theorem filename_of_join :
  forall a c : Path,
    Path.empty a = false ->
    no_slash (Path.s c) = true ->
    str.size (Path.s a) + str.size (Path.s c) + 1 < str.npos ->
    exists j, Path.div a c = Ret j /\ Path.filename j = Ret c.
Proof.
  intros a c NE N B.
  destruct (filename_after_join a c NE N B) as [j [D F]].
  exists j. split; [exact D | exact F].
Qed.

Lemma filename_of_join_witness :
  exists j, Path.div (path "/a/b") (path "c") = Ret j
    /\ Path.filename j = Ret (path "c").
Proof.
  apply (filename_of_join (path "/a/b") (path "c")).
  - reflexivity.
  - reflexivity.
  - vm_compute. reflexivity.
Defined.

(** X2. [parent_path] of a join gives back the left operand, when the
    right operand holds no separator and the left one does not end with a
    separator or is the root [/]. *)
Theorem parent_path_of_join :
  forall a c : Path,
    Path.empty a = false ->
    no_slash (Path.s c) = true ->
    str.size (Path.s a) + str.size (Path.s c) + 1 < str.npos ->
    ends_with_slash (Path.s a) = false \/ Path.s a = [slash] ->
    exists j, Path.div a c = Ret j /\ Path.parent_path j = Ret a.
Proof.
  intros a c NE N B E.
  destruct (parent_path_after_join a c NE N B E) as [j [D P]].
  exists j. split; [exact D | exact P].
Qed.

Lemma parent_path_of_join_witness :
  exists j, Path.div (path "/a/b") (path "c") = Ret j
    /\ Path.parent_path j = Ret (path "/a/b").
Proof.
  apply (parent_path_of_join (path "/a/b") (path "c")).
  - reflexivity.
  - reflexivity.
  - vm_compute. reflexivity.
  - left. reflexivity.
Defined.

(** X3. Without a separator there is no parent: [parent_path] is empty and
    [filename] is the whole path. *)
Theorem no_separator_no_parent (p : Path) :
  no_slash (Path.s p) = true ->
  Path.parent_path p = Ret (path "") /\ Path.filename p = Ret p.
Proof.
  intro N. unfold Path.parent_path, Path.filename, last_slash.
  rewrite (rfind_lacks _ slash _ N). split; reflexivity.
Qed.

Lemma no_separator_no_parent_witness :
  Path.parent_path (path "file.txt") = Ret (path "")
  /\ Path.filename (path "file.txt") = Ret (path "file.txt").
Proof.
  apply (no_separator_no_parent (path "file.txt")). reflexivity.
Defined.

Lemma lacks_false_last_index (c : ascii) (s : std_string) :
  lacks c s = false -> exists k, str.last_index c s = Some k.
Proof.
  intro L. destruct (str.last_index c s) as [k|] eqn:E; [eauto|].
  apply last_index_none_lacks in E. congruence.
Qed.

(** X4. [filename] is what follows the last separator: it holds no
    separator, and the path is a prefix ending in a separator, then the
    filename. [parent_path] is that prefix without its last separator, or
    the root when the prefix is the root. *)
Theorem parent_and_filename_split (p : Path) :
  str.size (Path.s p) < str.npos ->
  no_slash (Path.s p) = false ->
  exists d f,
    Path.parent_path p = Ret d /\ Path.filename p = Ret f
    /\ no_slash (Path.s f) = true
    /\ ((Path.s d <> [] /\ Path.s p = Path.s d ++ slash :: Path.s f)
        \/ (d = path "/" /\ Path.s p = slash :: Path.s f)).
Proof.
  intros B N.
  destruct (lacks_false_last_index slash _ N) as [k E].
  destruct (rfind_npos_found _ slash k B E) as [R [NP K]].
  destruct (last_index_split slash _ k E) as [SP L].
  unfold Path.parent_path, Path.filename, last_slash. rewrite R, NP.
  assert (K' : Z.of_nat k < str.size (Path.s p)) by (unfold str.size; lia).
  rewrite wrap_small by lia. rewrite substr_suffix by lia. cbn [bind].
  replace (Z.to_nat (Z.of_nat k + 1)) with (S k) by lia.
  destruct k as [|k].
  - exists (path "/"), (Path.make (skipn 1 (Path.s p))).
    repeat split; try assumption. right. split; [reflexivity|].
    simpl in SP. exact SP.
  - change (Z.of_nat (S k) =? 0) with false. cbv iota.
    rewrite substr_prefix by lia. cbn [bind]. rewrite Nat2Z.id.
    eexists _, _. repeat split; try exact L. left. cbn [Path.s]. split; [|exact SP].
    intro F. apply (f_equal (@List.length _)) in F. rewrite length_firstn in F.
    change (List.length (@nil ascii)) with O in F. lia.
Qed.

Lemma parent_and_filename_split_witness :
  exists d f,
    Path.parent_path (path "/a/b/c") = Ret d
    /\ Path.filename (path "/a/b/c") = Ret f
    /\ no_slash (Path.s f) = true
    /\ ((Path.s d <> [] /\ Path.s (path "/a/b/c") = Path.s d ++ slash :: Path.s f)
        \/ (d = path "/" /\ Path.s (path "/a/b/c") = slash :: Path.s f)).
Proof.
  apply (parent_and_filename_split (path "/a/b/c")).
  - vm_compute. reflexivity.
  - reflexivity.
Defined.

(** X24. [parent_path] returns for every path, and what it returns is
    shorter than the path, except at the root [/] and at the empty path,
    which are their own parents. *)
Theorem parent_path_shortens :
  forall p : Path,
    str.size (Path.s p) < str.npos ->
    exists d,
      Path.parent_path p = Ret d
      /\ (Path.size d < Path.size p
          \/ (p = path "/" /\ d = path "/")
          \/ (p = path "" /\ d = path "")).
Proof.
  intros p B. destruct (no_slash (Path.s p)) eqn:N.
  - exists (path ""). unfold Path.parent_path, last_slash.
    rewrite (rfind_lacks _ slash _ N). split; [reflexivity|].
    destruct p as [[|c t]]; [right; right; split; reflexivity|].
    left. unfold Path.size, str.size. simpl. lia.
  - destruct (lacks_false_last_index slash _ N) as [k E].
    destruct (rfind_npos_found _ slash k B E) as [R [NP K]].
    unfold Path.parent_path, last_slash. rewrite R, NP.
    destruct k as [|k].
    + exists (path "/"). split; [reflexivity|].
      destruct p as [[|c [|c' t]]]; simpl in K; try lia.
      * right. left. simpl in E. destruct (Ascii.eqb c slash) eqn:C; [|discriminate E].
        apply Ascii.eqb_eq in C. subst c. split; reflexivity.
      * left. unfold Path.size, str.size. simpl. lia.
    + change (Z.of_nat (S k) =? 0) with false. cbv iota.
      rewrite substr_prefix by (unfold str.size; lia). cbn [bind].
      eexists. split; [reflexivity|]. left.
      unfold Path.size, str.size. cbn [Path.s]. rewrite length_firstn. lia.
Qed.

Lemma parent_path_shortens_witness :
  exists d,
    Path.parent_path (path "/a/b") = Ret d
    /\ (Path.size d < Path.size (path "/a/b")
        \/ (path "/a/b" = path "/" /\ d = path "/")
        \/ (path "/a/b" = path "" /\ d = path "")).
Proof.
  apply (parent_path_shortens (path "/a/b")). vm_compute. reflexivity.
Defined.


(** ** Path: stem, extension, replace_extension *)

Lemma stem_value (p : Path) :
  str.size (Path.s p) < str.npos ->
  Path.stem p = Ret (Path.make (before_last_dot (Path.s p))).
Proof.
  intro B. destruct (filename_returns p B) as [st F].
  unfold Path.stem, before_last_dot. rewrite F. cbn [bind].
  rewrite rfind_npos by exact B.
  destruct (str.last_index dot (Path.s p)) as [k|] eqn:E.
  - assert (K := last_index_bound _ _ _ E).
    replace (Z.of_nat k =? str.npos) with false
      by (symmetry; apply Z.eqb_neq; unfold str.size in B; lia).
    rewrite substr_prefix by (unfold str.size; lia).
    cbn [bind]. rewrite Nat2Z.id. reflexivity.
  - rewrite Z.eqb_refl. reflexivity.
Qed.

Lemma extension_value (p : Path) :
  str.size (Path.s p) < str.npos ->
  Path.extension p
  = Ret (Path.make (match str.last_index dot (Path.s p) with
                    | Some k => skipn k (Path.s p)
                    | None => []
                    end)).
Proof.
  intro B. unfold Path.extension. rewrite rfind_npos by exact B.
  destruct (str.last_index dot (Path.s p)) as [k|] eqn:E.
  - assert (K := last_index_bound _ _ _ E).
    replace (Z.of_nat k =? str.npos) with false
      by (symmetry; apply Z.eqb_neq; unfold str.size in B; lia).
    rewrite substr_suffix by (unfold str.size in *; lia).
    cbn [bind]. rewrite Nat2Z.id. reflexivity.
  - rewrite Z.eqb_refl. reflexivity.
Qed.

Lemma cut_at_last_dot (d r : std_string) :
  lacks dot r = true ->
  str.size d + str.size r + 1 < str.npos ->
  Path.stem (Path.make (d ++ dot :: r)) = Ret (Path.make d)
  /\ Path.extension (Path.make (d ++ dot :: r)) = Ret (Path.make (dot :: r)).
Proof.
  intros L B.
  assert (B' : str.size (d ++ dot :: r) < str.npos).
  { change (dot :: r) with ([dot] ++ r). rewrite !size_app.
    change (str.size [dot]) with 1. lia. }
  rewrite stem_value, extension_value by exact B'.
  unfold before_last_dot. cbn [Path.s]. rewrite (last_index_app dot d r L).
  rewrite firstn_length_app, skipn_length_app. split; reflexivity.
Qed.

(** X5. [stem] and [extension] cut the whole path at its last dot: before
    it is the stem, from it on the extension, whatever stands on either
    side, separators included. *)
Theorem stem_and_extension_cut_at_last_dot :
  forall d r : std_string,
    lacks dot r = true ->
    str.size d + str.size r + 1 < str.npos ->
    Path.stem (Path.make (d ++ dot :: r)) = Ret (Path.make d)
    /\ Path.extension (Path.make (d ++ dot :: r)) = Ret (Path.make (dot :: r)).
Proof.
  intros d r L B. destruct (cut_at_last_dot d r L B) as [S X].
  split; [exact S | exact X].
Qed.

Lemma stem_and_extension_cut_witness :
  Path.stem (Path.make (lit "/x.d/report" ++ dot :: lit "tar"))
    = Ret (Path.make (lit "/x.d/report"))
  /\ Path.extension (Path.make (lit "/x.d/report" ++ dot :: lit "tar"))
     = Ret (Path.make (dot :: lit "tar")).
Proof.
  apply (stem_and_extension_cut_at_last_dot (lit "/x.d/report") (lit "tar")).
  - reflexivity.
  - vm_compute. reflexivity.
Defined.

(** X6. A path without a dot has no extension and is its own stem. *)
Theorem no_dot_no_extension (p : Path) :
  lacks dot (Path.s p) = true ->
  str.size (Path.s p) < str.npos ->
  Path.stem p = Ret p /\ Path.extension p = Ret (path "").
Proof.
  intros L B. rewrite stem_value, extension_value by exact B.
  unfold before_last_dot. rewrite (last_index_lacks dot _ L).
  destruct p. split; reflexivity.
Qed.

Lemma no_dot_no_extension_witness :
  Path.stem (path "/x/report") = Ret (path "/x/report")
  /\ Path.extension (path "/x/report") = Ret (path "").
Proof.
  apply (no_dot_no_extension (path "/x/report")).
  - reflexivity.
  - vm_compute. reflexivity.
Defined.

(** X7. For every path, [stem] and [extension] concatenated give the path
    back. *)
Theorem stem_and_extension_rebuild_path :
  forall p : Path,
    str.size (Path.s p) < str.npos ->
    exists a b,
      Path.stem p = Ret a /\ Path.extension p = Ret b /\ Path.plus a b = p.
Proof.
  intros p B. destruct (stem_plus_extension p B) as (a & b & S & X & E).
  exists a, b. repeat split; assumption.
Qed.

Lemma stem_and_extension_rebuild_witness :
  exists a b,
    Path.stem (path "/x/report.tar") = Ret a
    /\ Path.extension (path "/x/report.tar") = Ret b
    /\ Path.plus a b = path "/x/report.tar".
Proof.
  apply (stem_and_extension_rebuild_path (path "/x/report.tar")).
  vm_compute. reflexivity.
Defined.

Lemma replace_extension_value (this e : Path) :
  str.size (Path.s this) < str.npos ->
  Path.replace_extension this e
  = Ret (Path.make
           ((if negb (str.empty (Path.s e))
                &&& negb (Ascii.eqb (str.get (Path.s e) 0) dot)
             then before_last_dot (Path.s this) ++ [dot]
             else before_last_dot (Path.s this)) ++ Path.s e)).
Proof.
  intro B. unfold Path.replace_extension, before_last_dot.
  rewrite rfind_npos by exact B.
  destruct (str.last_index dot (Path.s this)) as [k|] eqn:E.
  - assert (K := last_index_bound _ _ _ E).
    replace (Z.of_nat k =? str.npos) with false
      by (symmetry; apply Z.eqb_neq; unfold str.size in B; lia).
    cbn [negb]. rewrite erase_from_prefix by (unfold str.size in *; lia).
    cbn [bind]. rewrite Nat2Z.id. reflexivity.
  - rewrite Z.eqb_refl. reflexivity.
Qed.

(** X8. Replacing the extension by nothing leaves the stem. *)
Theorem replace_extension_by_nothing (this : Path) :
  str.size (Path.s this) < str.npos ->
  Path.replace_extension this (path "") = Path.stem this.
Proof.
  intro B. rewrite replace_extension_value, stem_value by exact B.
  cbn. rewrite app_nil_r. reflexivity.
Qed.

Lemma replace_extension_by_nothing_witness :
  Path.replace_extension (path "a.txt") (path "") = Path.stem (path "a.txt").
Proof.
  apply (replace_extension_by_nothing (path "a.txt")).
  vm_compute. reflexivity.
Defined.

Lemma lacks_head (c x : ascii) (t : std_string) :
  lacks c (x :: t) = true -> Ascii.eqb x c = false.
Proof.
  simpl. intro L. apply andb_true_iff in L. destruct L as [X _].
  apply negb_true_iff in X. exact X.
Qed.



(** ** canonical on absolute paths *)

Lemma wrap_nonneg (z : Z) : 0 <= size_t.wrap z.
Proof. unfold size_t.wrap. apply Z.mod_pos_bound. reflexivity. Qed.

Lemma last_index_head (c : ascii) (t : std_string) :
  exists k, str.last_index c (c :: t) = Some k.
Proof.
  simpl. destruct (str.last_index c t); [eauto|].
  rewrite Ascii.eqb_refl. eauto.
Qed.

(** A string that starts with [c] has a [c] at or before any index. *)
Lemma rfind_head (c : ascii) (t : std_string) (pos : Z) :
  0 <= pos ->
  0 <= str.rfind (c :: t) c pos < str.size (c :: t).
Proof.
  intro P. unfold str.rfind.
  destruct (str.size (c :: t) =? 0) eqn:Z0.
  { apply Z.eqb_eq in Z0. unfold str.size in Z0. simpl in Z0. lia. }
  replace (Z.to_nat (Z.min pos (str.size (c :: t) - 1)) + 1)%nat
    with (S (Z.to_nat (Z.min pos (str.size (c :: t) - 1)))) by lia.
  cbn [firstn].
  destruct (last_index_head c (firstn (Z.to_nat (Z.min pos (str.size (c :: t) - 1))) t))
    as [k E].
  rewrite E. apply last_index_bound in E. cbn [List.length] in E.
  rewrite length_firstn in E. unfold str.size. cbn [List.length]. lia.
Qed.

Lemma erase_value (s : std_string) (j n : Z) :
  0 <= j <= str.size s ->
  str.erase s j n
  = Ret (firstn (Z.to_nat j) s
         ++ skipn (Z.to_nat (j + Z.min n (str.size s - j))) s).
Proof.
  intro R. unfold str.erase.
  destruct (str.size s <? j) eqn:L; [apply Z.ltb_lt in L; lia | reflexivity].
Qed.

Lemma erase_size (s s' : std_string) (j n : Z) :
  0 <= n -> str.erase s j n = Ret s' -> str.size s' <= str.size s.
Proof.
  intros N. unfold str.erase.
  destruct (str.size s <? j) eqn:L; [discriminate|].
  apply Z.ltb_ge in L. intro E. injection E as <-.
  unfold str.size in *. rewrite length_app, length_firstn, length_skipn. lia.
Qed.


Lemma rooted_cons (s : std_string) :
  rooted s = true -> exists t, s = slash :: t.
Proof.
  destruct s as [|c t]; simpl; [discriminate|].
  intro E. apply Ascii.eqb_eq in E. subst c. eauto.
Qed.

Lemma rooted_firstn_app (s r : std_string) (j : nat) :
  rooted s = true -> (0 < j)%nat -> rooted (firstn j s ++ r) = true.
Proof.
  intros R J. destruct (rooted_cons s R) as [t ->].
  destruct j as [|j]; [lia | reflexivity].
Qed.

Lemma rooted_skipn (s : std_string) (i : Z) :
  0 <= i < str.size s -> is_char s i slash = true ->
  rooted (skipn (Z.to_nat i) s) = true.
Proof.
  intros R C. rewrite get_skipn by exact R. simpl. exact C.
Qed.


Lemma rooted_answer_shrink (s s1 : std_string) (r : result std_string) :
  str.size s1 <= str.size s -> rooted_answer s1 r -> rooted_answer s r.
Proof.
  intros L [T | (s' & E & R & Z)]; [left; exact T|].
  right. exists s'. repeat split; try assumption. lia.
Qed.

(** Erasing up to a separator keeps the string rooted. *)
Lemma erase_keeps_root (s : std_string) (j i d : Z) :
  rooted s = true ->
  str.size s < str.npos ->
  0 <= j < str.size s ->
  0 <= i < str.size s ->
  is_char s i slash = true ->
  (j = 0 -> d = i) ->
  exists s1,
    str.erase s j (size_t.wrap (d - j)) = Ret s1
    /\ rooted s1 = true /\ str.size s1 <= str.size s.
Proof.
  intros R B J I C D.
  rewrite erase_value by lia. eexists. split; [reflexivity|]. split.
  - destruct (Z.eq_dec j 0) as [-> | NZ].
    + rewrite (D eq_refl), Z.sub_0_r, wrap_small by lia.
      rewrite Z.sub_0_r, Z.min_l by lia. simpl firstn. simpl app.
      apply rooted_skipn; assumption.
    + apply rooted_firstn_app; [exact R | lia].
  - apply (erase_size s _ j (size_t.wrap (d - j)));
      [apply wrap_nonneg | apply erase_value; lia].
Qed.

Lemma erase_from_rooted (s : std_string) (j : Z) :
  rooted s = true ->
  str.size s < str.npos ->
  0 <= j < str.size s ->
  exists s1,
    str.erase_from s j = Ret s1
    /\ (rooted s1 = true \/ s1 = []) /\ str.size s1 <= str.size s.
Proof.
  intros R B J. rewrite erase_from_prefix by lia.
  eexists. split; [reflexivity|]. split.
  - destruct (Z.eq_dec j 0) as [-> | NZ]; [right; reflexivity|].
    left. rewrite <- (app_nil_r (firstn _ _)).
    apply rooted_firstn_app; [exact R | lia].
  - unfold str.size. rewrite length_firstn. lia.
Qed.

Lemma rfind_rooted (s : std_string) (pos : Z) :
  rooted s = true -> 0 <= pos ->
  0 <= str.rfind s slash pos < str.size s.
Proof.
  intros R P. destruct (rooted_cons s R) as [t ->]. apply rfind_head, P.
Qed.

Lemma canonical_loop_rooted (fuel : nat) :
  forall (s : std_string) (pos : Z),
    rooted s = true ->
    str.size s < str.npos ->
    1 <= pos ->
    rooted_answer s (canonical_loop fuel s pos).
Proof.
  induction fuel as [|fuel IH]; intros s pos R B P; [left; reflexivity|].
  cbn [canonical_loop].
  destruct (find_spec s dot pos ltac:(lia)) as [E | [F D]].
  { rewrite E. right. exists s. repeat split; [left; exact R | lia]. }
  set (i := str.find s dot pos) in *.
  destruct (i =? str.npos).
  { right. exists s. repeat split; [left; exact R | lia]. }
  rewrite !(wrap_small (i - 1)), !(wrap_small (i + 1)), !(wrap_small (i + 2)),
          !(wrap_small (str.size s - 1)), !(wrap_small (str.size s - 2)) by lia.
  assert (J := rfind_rooted s (size_t.wrap (i - 2)) R (wrap_nonneg _)).
  set (j := str.rfind s slash (size_t.wrap (i - 2))) in *.
  assert (Continue : forall d,
             0 <= d < str.size s -> is_char s d slash = true ->
             rooted_answer s
               (s' <- str.erase s j (size_t.wrap (d - j)) ;;
                canonical_loop fuel s' i)).
  { intros d Rd C.
    destruct (erase_keeps_root s j d d R B J Rd C (fun _ => eq_refl))
      as (s1 & E1 & R1 & Z1).
    rewrite E1. cbn [bind].
    apply (rooted_answer_shrink s s1); [exact Z1|].
    apply IH; [exact R1 | lia | lia]. }
  assert (Break : rooted_answer s (str.erase_from s j)).
  { destruct (erase_from_rooted s j R B J) as (s1 & E1 & R1 & Z1).
    rewrite E1. right. exists s1. repeat split; assumption. }
  assert (Next : rooted_answer s (canonical_loop fuel s (i + 1))).
  { apply IH; [exact R | exact B | lia]. }
  destruct (is_char s (i - 1) slash) eqn:A.
  - destruct (i <? str.size s - 1) eqn:L1.
    + apply Z.ltb_lt in L1.
      destruct (is_char s (i + 1) slash) eqn:C1.
      { replace (i - j + 1) with (i + 1 - j) by lia. apply Continue; [lia | exact C1]. }
      destruct (i =? str.size s - 1); [exact Break|].
      destruct (i <? str.size s - 2) eqn:L3.
      * apply Z.ltb_lt in L3.
        destruct (is_char s (i + 1) dot).
        -- destruct (is_char s (i + 2) slash) eqn:C3.
           { replace (i - j + 2) with (i + 2 - j) by lia.
             apply Continue; [lia | exact C3]. }
           destruct (i =? str.size s - 2); [exact Break | exact Next].
        -- destruct (i =? str.size s - 2); exact Next.
      * destruct (i =? str.size s - 2); [|exact Next].
        destruct (is_char s (i + 1) dot); [exact Break | exact Next].
    + destruct (i =? str.size s - 1); [exact Break|].
      destruct (i <? str.size s - 2) eqn:L3.
      * apply Z.ltb_lt in L3. apply Z.ltb_ge in L1. lia.
      * destruct (i =? str.size s - 2); [|exact Next].
        destruct (is_char s (i + 1) dot); [exact Break | exact Next].
  - destruct (i <? str.size s - 2); destruct (i =? str.size s - 2); exact Next.
Qed.

(** X10. On an absolute path [canonical] does not throw and has no
    undefined step: it runs out of fuel or returns, and what it returns is
    no longer than the path and is absolute or empty. *)
Theorem canonical_absolute_never_throws :
  forall (W : Type) (H : Host W) (w : W) (p : Path) (fuel : nat),
    is_absolute p = true ->
    str.size (Path.string p) < str.npos ->
    canonical fuel w p = Timeout
    \/ exists q, canonical fuel w p = Ret q
         /\ (is_absolute q = true \/ q = path "")
         /\ Path.size q <= Path.size p.
Proof.
  intros W H w p fuel A B. unfold canonical.
  rewrite complete_absolute by exact A. cbn [bind]. unfold forward_slashes.
  destruct (canonical_loop_rooted fuel (Path.string p) 1 A B ltac:(lia))
    as [T | (s' & E & R & Z)]; [rewrite T; left; reflexivity|].
  rewrite E. right. exists (Path.make s'). split; [reflexivity|]. split; [|exact Z].
  destruct R as [R | ->]; [left; exact R | right; reflexivity].
Qed.

Lemma canonical_absolute_never_throws_witness :
  canonical 16 trees.bare (path "/a/b/../c") = Timeout
  \/ exists q, canonical 16 trees.bare (path "/a/b/../c") = Ret q
       /\ (is_absolute q = true \/ q = path "")
       /\ Path.size q <= Path.size (path "/a/b/../c").
Proof.
  apply (canonical_absolute_never_throws memfs.t memfs_host trees.bare
           (path "/a/b/../c") 16).
  - reflexivity.
  - vm_compute. reflexivity.
Defined.

(** ** complete *)

Lemma div_rooted (a b : Path) :
  rooted (Path.s a) = true ->
  exists j, Path.div a b = Ret j /\ is_absolute j = true.
Proof.
  intro R. destruct (rooted_cons _ R) as [t E].
  unfold Path.div. rewrite E. cbn [str.back bind].
  destruct (is_slash (last t slash)); eexists; split; reflexivity.
Qed.

Lemma complete_rooted :
  forall (W : Type) (H : Host W) (w : W) (buf : std_string) (p : Path),
    getcwd w 4096 = Some buf ->
    rooted (str.c_str buf) = true ->
    exists q, complete w p = Ret q
      /\ is_absolute q = true
      /\ complete w q = Ret q
      /\ (is_absolute p = true -> q = p).
Proof.
  intros W H w buf p G R.
  destruct (is_absolute p) eqn:A.
  - exists p. rewrite (complete_absolute w p A). repeat split; assumption.
  - assert (C : exists q, complete w p = Ret q /\ is_absolute q = true).
    { unfold complete, currentdir. rewrite G.
      unfold is_absolute, Path.size, Path.string, Path.empty in *.
      destruct (Path.s p) as [|c t] eqn:E.
      - cbn. exists (Path.make (str.c_str buf)). split; [reflexivity | exact R].
      - change (str.get (c :: t) 0) with c. rewrite A.
        replace (0 <? str.size (c :: t)) with true
          by (symmetry; apply Z.ltb_lt; unfold str.size; simpl; lia).
        cbn [str.empty]. apply div_rooted. exact R. }
    destruct C as [q [C Q]]. exists q.
    rewrite C, (complete_absolute w q Q). repeat split; try assumption.
    discriminate.
Qed.

(** X11. With a working directory that starts with a separator, [complete]
    returns an absolute path for every path, the path itself when it is
    absolute already, and completing the result changes nothing. *)
Theorem complete_gives_absolute :
  forall (W : Type) (H : Host W) (w : W) (buf : std_string) (p : Path),
    getcwd w 4096 = Some buf ->
    rooted (str.c_str buf) = true ->
    exists q, complete w p = Ret q
      /\ is_absolute q = true
      /\ complete w q = Ret q
      /\ (is_absolute p = true -> q = p).
Proof.
  intros W H w buf p G R.
  destruct (complete_rooted W H w buf p G R) as (q & C & A & I & P).
  exists q. repeat split; assumption.
Qed.

Lemma complete_gives_absolute_witness :
  exists q, complete trees.bare (path "x") = Ret q
    /\ is_absolute q = true
    /\ complete trees.bare q = Ret q
    /\ (is_absolute (path "x") = true -> q = path "x").
Proof.
  apply (complete_gives_absolute memfs.t memfs_host trees.bare
           (lit "/home/u") (path "x")).
  - reflexivity.
  - reflexivity.
Defined.

Lemma complete_no_cwd {W : Type} {H : Host W} :
  forall (w : W) (p : Path),
    getcwd w 4096 = None ->
    complete w p
    = if is_absolute p then Ret p
      else Throw "could not obtain current working directory".
Proof.
  intros w p G. destruct (is_absolute p) eqn:A.
  - apply complete_absolute, A.
  - unfold complete, currentdir. rewrite G.
    unfold is_absolute, Path.size, Path.string in *.
    destruct (Path.s p) as [|c t]; [reflexivity|].
    change (str.get (c :: t) 0) with c. rewrite A.
    destruct (0 <? str.size (c :: t)); reflexivity.
Qed.

(** X12. Without a working directory [complete] still returns an absolute
    path as it is, and throws on every other path, the empty one
    included. *)
Theorem complete_without_cwd :
  forall (W : Type) (H : Host W) (w : W) (p : Path),
    getcwd w 4096 = None ->
    complete w p
    = if is_absolute p then Ret p
      else Throw "could not obtain current working directory".
Proof.
  intros W H w p G. rewrite (complete_no_cwd w p G). reflexivity.
Qed.

Lemma complete_without_cwd_witness :
  complete no_cwd (path "x")
  = if is_absolute (path "x") then Ret (path "x")
    else Throw "could not obtain current working directory".
Proof.
  apply (complete_without_cwd memfs.t memfs_host no_cwd (path "x")).
  reflexivity.
Defined.

(** X13. [canonical] of a relative path is [canonical] of the working
    directory joined with it. *)
Theorem canonical_of_relative :
  forall (W : Type) (H : Host W) (w : W) (buf : std_string) (r : Path) (fuel : nat),
    getcwd w 4096 = Some buf ->
    rooted (str.c_str buf) = true ->
    Path.empty r = false ->
    is_absolute r = false ->
    exists j, Path.div (Path.make (str.c_str buf)) r = Ret j
      /\ canonical fuel w r = canonical fuel w j.
Proof.
  intros W H w buf r fuel G R NE A.
  destruct (div_rooted (Path.make (str.c_str buf)) r R) as [j [D J]].
  exists j. split; [exact D|]. unfold canonical.
  rewrite (complete_absolute w j J).
  replace (complete w r) with (Ret (A := Path) j); [reflexivity|].
  unfold complete, currentdir. rewrite G.
  unfold is_absolute, Path.size, Path.string, Path.empty in *.
  destruct (Path.s r) as [|c t]; [discriminate NE|].
  change (str.get (c :: t) 0) with c. rewrite A.
  destruct (0 <? str.size (c :: t)); cbn [str.empty]; symmetry; exact D.
Qed.

Lemma canonical_of_relative_witness :
  exists j, Path.div (Path.make (str.c_str (lit "/home/u"))) (path "x") = Ret j
    /\ canonical 16 trees.bare (path "x") = canonical 16 trees.bare j.
Proof.
  apply (canonical_of_relative memfs.t memfs_host trees.bare
           (lit "/home/u") (path "x") 16).
  - reflexivity.
  - reflexivity.
  - reflexivity.
  - reflexivity.
Defined.

(** X25. A path equals its completion under [operator==], whenever the
    working directory starts with a separator and the path
    canonicalizes. *)
Theorem path_equals_its_completion :
  forall (W : Type) (H : Host W) (w : W) (buf : std_string) (p : Path)
         (fuel : nat),
    getcwd w 4096 = Some buf ->
    rooted (str.c_str buf) = true ->
    returns (canonical fuel w p) ->
    exists q, complete w p = Ret q /\ Path_eq fuel w p q = Ret true.
Proof.
  intros W H w buf p fuel G R [c C].
  destruct (complete_rooted W H w buf p G R) as (q & Cq & A & I & _).
  exists q. split; [exact Cq|].
  assert (E : canonical fuel w q = canonical fuel w p).
  { unfold canonical. rewrite I, Cq. reflexivity. }
  unfold Path_eq. rewrite E, C. cbn [bind].
  unfold str.strcmp_eq0. rewrite str_eqb_refl. reflexivity.
Qed.

Lemma path_equals_its_completion_witness :
  exists q, complete trees.bare (path "x") = Ret q
    /\ Path_eq 16 trees.bare (path "x") q = Ret true.
Proof.
  apply (path_equals_its_completion memfs.t memfs_host trees.bare
           (lit "/home/u") (path "x") 16).
  - reflexivity.
  - reflexivity.
  - eexists. vm_compute. reflexivity.
Defined.

(** ** operator== *)

Lemma str_eqb_eq (a b : std_string) : str.eqb a b = true <-> a = b.
Proof.
  unfold str.eqb. destruct (list_eq_dec ascii_dec a b) as [E | N];
    split; intro X; try assumption; try reflexivity; try discriminate.
  contradiction.
Qed.

Lemma str_eqb_sym (a b : std_string) : str.eqb a b = str.eqb b a.
Proof.
  destruct (str.eqb a b) eqn:E.
  - apply str_eqb_eq in E. subst b. symmetry. apply str_eqb_refl.
  - destruct (str.eqb b a) eqn:F; [|reflexivity].
    apply str_eqb_eq in F. subst b. rewrite str_eqb_refl in E. discriminate E.
Qed.

Lemma Path_eq_inv {W : Type} {H : Host W} (fuel : nat) (w : W) (a b : Path) (x : bool) :
  Path_eq fuel w a b = Ret x ->
  exists ca cb,
    canonical fuel w a = Ret ca /\ canonical fuel w b = Ret cb
    /\ x = str.strcmp_eq0 (Path.c_str ca) (Path.c_str cb).
Proof.
  unfold Path_eq.
  destruct (canonical fuel w a) as [ca| | |]; cbn [bind]; try discriminate.
  destruct (canonical fuel w b) as [cb| | |]; cbn [bind]; try discriminate.
  intro E. injection E as <-. eauto.
Qed.


(** X14. [operator==] is an equivalence on the paths whose canonical form
    is computed: a path equals itself, the answer does not depend on the
    order of the operands, equality carries over a common operand, and
    [operator!=] answers the opposite. *)
Theorem Path_eq_is_equivalence :
  forall (W : Type) (H : Host W) (fuel : nat) (w : W) (a b c : Path),
    (returns (canonical fuel w a) -> Path_eq fuel w a a = Ret true)
    /\ (forall x, Path_eq fuel w a b = Ret x -> Path_eq fuel w b a = Ret x)
    /\ (Path_eq fuel w a b = Ret true -> Path_eq fuel w b c = Ret true ->
        Path_eq fuel w a c = Ret true)
    /\ (forall x, Path_eq fuel w a b = Ret x -> Path_ne fuel w a b = Ret (negb x)).
Proof.
  intros W H fuel w a b c. repeat split.
  - intros [ca E]. unfold Path_eq. rewrite E. cbn [bind].
    unfold str.strcmp_eq0. rewrite str_eqb_refl. reflexivity.
  - intros x E. destruct (Path_eq_inv _ _ _ _ _ E) as (ca & cb & A & B & ->).
    unfold Path_eq. rewrite A, B. cbn [bind]. unfold str.strcmp_eq0.
    rewrite str_eqb_sym. reflexivity.
  - intros E F.
    destruct (Path_eq_inv _ _ _ _ _ E) as (ca & cb & A & B & X).
    destruct (Path_eq_inv _ _ _ _ _ F) as (cb' & cc & B' & C & Y).
    rewrite B in B'. injection B' as <-.
    unfold Path_eq. rewrite A, C. cbn [bind]. f_equal.
    unfold str.strcmp_eq0 in *. symmetry in X, Y.
    apply str_eqb_eq in X, Y. apply str_eqb_eq. congruence.
  - intros x E. unfold Path_ne. rewrite E. reflexivity.
Qed.

Lemma c_str_idempotent (s : std_string) : str.c_str (str.c_str s) = str.c_str s.
Proof.
  induction s as [|x t IH]; [reflexivity|]. simpl.
  destruct (Ascii.eqb x zero) eqn:E; [reflexivity|].
  simpl. rewrite E, IH. reflexivity.
Qed.

(** X15. On two absolute paths without dot segments [operator==] compares
    the two as C strings: what follows a NUL byte does not count. *)
Theorem Path_eq_on_canonical_forms :
  forall (W : Type) (H : Host W) (fuel : nat) (w : W) (a b : Path),
    is_absolute a = true -> dot_free a = true ->
    is_absolute b = true -> dot_free b = true ->
    str.size (Path.string a) < str.npos ->
    str.size (Path.string b) < str.npos ->
    (List.length (Path.string a) < fuel)%nat ->
    (List.length (Path.string b) < fuel)%nat ->
    Path_eq fuel w a b = Ret (str.eqb (Path.c_str a) (Path.c_str b)).
Proof.
  intros W H fuel w a b Aa Fa Ab Fb Ba Bb La Lb. unfold Path_eq.
  rewrite (canonical_dot_free w a fuel), (canonical_dot_free w b fuel) by assumption.
  cbn [bind]. unfold str.strcmp_eq0, Path.c_str.
  rewrite !c_str_idempotent. reflexivity.
Qed.

Lemma Path_eq_on_canonical_forms_witness :
  Path_eq 8 trees.bare (path "/a/b") (path "/a/c")
  = Ret (str.eqb (Path.c_str (path "/a/b")) (Path.c_str (path "/a/c"))).
Proof.
  apply (Path_eq_on_canonical_forms memfs.t memfs_host 8 trees.bare
           (path "/a/b") (path "/a/c")); try reflexivity;
    vm_compute; lia.
Defined.


(** ** Queries *)

(** X19. The three queries agree and leave the file system alone: a
    directory exists and is not a regular file, a regular file exists. *)
Theorem queries_agree :
  forall (W : Type) (H : Host W) (w : W) (p : Path),
    exists e d r,
      exists_ p w = Ret (e, w)
      /\ is_directory p w = Ret (d, w)
      /\ is_regular_file p w = Ret (r, w)
      /\ (d = true -> e = true /\ r = false)
      /\ (r = true -> e = true /\ d = false)
      /\ (e = false -> d = false /\ r = false).
Proof.
  intros W H w p. unfold exists_, is_directory, is_regular_file, reading.
  destruct (lstat w (Path.c_str p)) as [[]|]; cbn [bind];
    do 3 eexists; (split; [reflexivity|]); (split; [reflexivity|]);
    (split; [reflexivity|]); repeat split; congruence.
Qed.

(** ** directory_iterator *)


Lemma advance_end (k : nat) (p : Path) :
  advance k (mk_iterator None None p) = mk_iterator None None p.
Proof. induction k as [|k IH]; [reflexivity | exact IH]. Qed.

Lemma advance_stream (names : list std_string) :
  forall (k : nat) (d : option std_string) (p : Path),
    advance k (incr (mk_iterator (Some names) d p))
    = if (k <? List.length names)%nat
      then mk_iterator (Some (skipn (S k) names)) (Some (nth k names [])) p
      else mk_iterator None None p.
Proof.
  induction names as [|n rest IH]; intros k d p.
  - cbn [incr dir it_p]. rewrite advance_end. destruct k; reflexivity.
  - destruct k as [|k]; [reflexivity|].
    cbn [advance]. change (incr (mk_iterator (Some (n :: rest)) d p))
      with (mk_iterator (Some rest) (Some n) p).
    rewrite IH. reflexivity.
Qed.

(** X20. An iterator opened on a directory stands on the first name;
    [operator++] walks the names [opendir] gave, in order; after the last
    one the iterator is in the end state, stays there, and dereferencing it
    is undefined. On an empty listing it is in the end state at once. *)
Theorem iterator_walks_the_names :
  forall (W : Type) (H : Host W) (w : W) (p : Path) (names : list std_string),
    opendir w (Path.c_str p) = Some names ->
    exists it,
      open_iterator p w = Ret (it, w)
      /\ (forall k, (k < List.length names)%nat ->
            dp (advance k it) = Some (nth k names [])
            /\ is_null (dir (advance k it)) = false
            /\ it_p (advance k it) = p)
      /\ (forall k, (List.length names <= k)%nat ->
            advance k it = mk_iterator None None p
            /\ deref (advance k it) = Undefined).
Proof.
  intros W H w p names O. eexists. split; [|split].
  - unfold open_iterator, reading. unfold Path.c_str, Path.string in *.
    rewrite O. reflexivity.
  - intros k K. rewrite advance_stream.
    apply Nat.ltb_lt in K. rewrite K. repeat split.
  - intros k K. rewrite advance_stream.
    apply Nat.ltb_ge in K. rewrite K. split; reflexivity.
Qed.

Lemma iterator_walks_the_names_witness :
  exists it,
    open_iterator (path "/tmp/t") trees.nested = Ret (it, trees.nested)
    /\ (forall k,
          (k < List.length [lit "."; lit ".."; lit "a.txt"; lit "sub"])%nat ->
          dp (advance k it)
            = Some (nth k [lit "."; lit ".."; lit "a.txt"; lit "sub"] [])
          /\ is_null (dir (advance k it)) = false
          /\ it_p (advance k it) = path "/tmp/t")
    /\ (forall k,
          (List.length [lit "."; lit ".."; lit "a.txt"; lit "sub"] <= k)%nat ->
          advance k it = mk_iterator None None (path "/tmp/t")
          /\ deref (advance k it) = Undefined).
Proof.
  apply (iterator_walks_the_names memfs.t memfs_host trees.nested
           (path "/tmp/t") [lit "."; lit ".."; lit "a.txt"; lit "sub"]).
  reflexivity.
Defined.


(** X21. Comparing with the end sentinel: an iterator with an open stream
    differs from it, and no path is canonicalized for that. An iterator in
    the end state equals it once both paths are canonicalized; without a
    working directory that comparison throws. *)
Theorem iterator_eq_end :
  forall (W : Type) (H : Host W) (fuel : nat) (w : W) (it : directory_iterator),
    (is_null (dir it) = false ->
     iterator_eq fuel it end_iterator w = Ret (false, w))
    /\ (dir it = None -> dp it = None ->
        returns (canonical fuel w (it_p it)) ->
        returns (canonical fuel w (path "")) ->
        iterator_eq fuel it end_iterator w = Ret (true, w))
    /\ (dir it = None -> dp it = None ->
        returns (canonical fuel w (it_p it)) ->
        getcwd w 4096 = None ->
        iterator_eq fuel it end_iterator w
        = Throw "could not obtain current working directory").
Proof.
  intros W H fuel w it. unfold iterator_eq. repeat split.
  - intro N. destruct (dir it); [reflexivity | discriminate N].
  - intros D P [ca A] [cb B]. rewrite D, P. cbn [ptr_eq dir dp end_iterator].
    unfold bindM, reading, Path_eq. cbn [it_p end_iterator].
    change (Path.make (lit "")) with (path "").
    rewrite A, B. cbn [bind].
    destruct (str.strcmp_eq0 _ _); reflexivity.
  - intros D P [ca A] G. rewrite D, P. cbn [ptr_eq dir dp end_iterator].
    unfold bindM, reading, Path_eq. cbn [it_p end_iterator].
    change (Path.make (lit "")) with (path "").
    rewrite A. cbn [bind]. unfold canonical.
    rewrite (complete_no_cwd w (path "") G). reflexivity.
Qed.



(** ** remove_all: entries that are skipped *)


Section DotEntries.

Context {W : Type} {H : Host W}.

Variable w : W.
Variable p : Path.
Variable cf : nat.

Hypothesis p_not_empty : Path.empty p = false.
Hypothesis p_fits : str.size (Path.s p) + 3 < str.npos.
Hypothesis dot_returns : returns (canonical cf w (path ".")).
Hypothesis dotdot_returns : returns (canonical cf w (path "..")).
Hypothesis p_returns : returns (canonical cf w p).
Hypothesis empty_returns : returns (canonical cf w (path "")).





End DotEntries.


(** ** canonical of [.] and [..] *)


Lemma first_index_least (c : ascii) (s : std_string) (k : nat) :
  (k < List.length s)%nat -> nth k s zero = c ->
  exists j, str.first_index c s = Some j /\ (j <= k)%nat.
Proof.
  revert k. induction s as [|x t IH]; intros k K N; simpl in K; [lia|].
  simpl. destruct (Ascii.eqb x c) eqn:X; [exists O; split; [reflexivity | lia]|].
  destruct k as [|k].
  - simpl in N. subst x. rewrite Ascii.eqb_refl in X. discriminate X.
  - simpl in N. destruct (IH k ltac:(lia) N) as [j [E J]].
    rewrite E. exists (S j). split; [reflexivity | lia].
Qed.

(** [find] stops at the first match. *)
Lemma find_le (s : std_string) (c : ascii) (pos k : Z) :
  0 <= pos <= k -> k < str.size s -> str.get s k = c ->
  pos <= str.find s c pos <= k.
Proof.
  intros P K G. unfold str.find.
  destruct (str.size s <=? pos) eqn:L; [apply Z.leb_le in L; lia|].
  destruct (first_index_least c (skipn (Z.to_nat pos) s) (Z.to_nat (k - pos)))
    as [j [E J]].
  - rewrite length_skipn. unfold str.size in K. lia.
  - rewrite nth_skipn. unfold str.get in G.
    replace (Z.to_nat pos + Z.to_nat (k - pos))%nat with (Z.to_nat k) by lia.
    exact G.
  - rewrite E. lia.
Qed.

Section DotTail.

Variable cwd : std_string.
Variable d : std_string.

Hypothesis cwd_rooted : rooted cwd = true.
Hypothesis cwd_dot_free : dot_free (Path.make cwd) = true.
Hypothesis cwd_fits : str.size cwd + 3 < str.npos.
Hypothesis d_dots : d = lit "." \/ d = lit "..".

Lemma tail_size : str.size (cwd ++ slash :: d) = str.size cwd + 1 + str.size d.
Proof.
  change (slash :: d) with ([slash] ++ d). rewrite !size_app.
  change (str.size [slash]) with 1. lia.
Qed.

Lemma tail_small : 1 <= str.size d <= 2.
Proof. destruct d_dots as [-> | ->]; cbv; split; discriminate. Qed.

Lemma cwd_size_positive : 1 <= str.size cwd.
Proof.
  destruct (rooted_cons cwd cwd_rooted) as [t ->]. unfold str.size. simpl. lia.
Qed.

Lemma get_in_cwd (k : Z) :
  0 <= k < str.size cwd -> str.get (cwd ++ slash :: d) k = str.get cwd k.
Proof.
  intro K. unfold str.get. apply app_nth1. unfold str.size in K. lia.
Qed.

Lemma get_after_cwd (k : Z) :
  0 <= k -> str.get (cwd ++ slash :: d) (str.size cwd + k) = nth (Z.to_nat k) (slash :: d) zero.
Proof.
  intro K. unfold str.get. rewrite app_nth2 by (unfold str.size; lia).
  f_equal. unfold str.size. lia.
Qed.

Lemma get_slash : str.get (cwd ++ slash :: d) (str.size cwd) = slash.
Proof.
  rewrite <- (Z.add_0_r (str.size cwd)). rewrite get_after_cwd by lia. reflexivity.
Qed.

Lemma get_first_dot : str.get (cwd ++ slash :: d) (str.size cwd + 1) = dot.
Proof.
  rewrite get_after_cwd by lia. destruct d_dots as [-> | ->]; reflexivity.
Qed.

Lemma is_char_in_cwd (k : Z) (c : ascii) :
  0 <= k < str.size cwd -> is_char (cwd ++ slash :: d) k c = is_char cwd k c.
Proof. intro K. unfold is_char. rewrite get_in_cwd by exact K. reflexivity. Qed.

Lemma rfind_in_cwd :
  exists k, str.last_index slash cwd = Some k
    /\ (k < List.length cwd)%nat
    /\ str.rfind (cwd ++ slash :: d) slash (str.size cwd - 1) = Z.of_nat k.
Proof.
  destruct (rooted_cons cwd cwd_rooted) as [t E].
  destruct (last_index_head slash t) as [k K]. rewrite <- E in K.
  exists k. assert (B := last_index_bound _ _ _ K).
  split; [exact K|]. split; [exact B|].
  unfold str.rfind. rewrite tail_size.
  pose proof (size_nonneg d) as Dn. pose proof cwd_size_positive as Cp.
  replace (str.size cwd + 1 + str.size d =? 0) with false
    by (symmetry; apply Z.eqb_neq; lia).
  rewrite Z.min_l by lia.
  replace (Z.to_nat (str.size cwd - 1) + 1)%nat with (List.length cwd)
    by (unfold str.size in *; lia).
  rewrite firstn_length_app, K. reflexivity.
Qed.

(** The answer of the loop: the working directory cut at its last
    separator. *)
Lemma erase_to_parent :
  str.erase_from (cwd ++ slash :: d) (str.rfind (cwd ++ slash :: d) slash (str.size cwd - 1))
  = Ret (before_last_slash cwd).
Proof.
  destruct rfind_in_cwd as (k & K & B & R). rewrite R.
  pose proof tail_small as Dn. pose proof cwd_fits as Cf.
  rewrite erase_from_prefix
    by (rewrite tail_size; unfold str.size in *; lia).
  rewrite Nat2Z.id. unfold before_last_slash. rewrite K.
  rewrite firstn_app. replace (k - List.length cwd)%nat with O by lia.
  simpl firstn at 2. rewrite app_nil_r. reflexivity.
Qed.

Lemma dot_tail_step (fuel : nat) (pos : Z) :
  1 <= pos <= str.size cwd + 1 ->
  canonical_loop (S fuel) (cwd ++ slash :: d) pos
  = if str.find (cwd ++ slash :: d) dot pos <? str.size cwd
    then canonical_loop fuel (cwd ++ slash :: d) (str.find (cwd ++ slash :: d) dot pos + 1)
    else Ret (before_last_slash cwd).
Proof.
  intro P.
  pose proof (size_nonneg d) as Dn. pose proof cwd_size_positive as Cp.
  assert (Sd : str.size d = 1 \/ str.size d = 2)
    by (destruct d_dots as [-> | ->]; [left | right]; reflexivity).
  assert (F := find_le (cwd ++ slash :: d) dot pos (str.size cwd + 1) ltac:(lia)
                 ltac:(rewrite tail_size; lia) get_first_dot).
  assert (G : str.get (cwd ++ slash :: d) (str.find (cwd ++ slash :: d) dot pos) = dot).
  { destruct (find_spec (cwd ++ slash :: d) dot pos ltac:(lia)) as [E | [_ G]]; [|exact G].
    rewrite E in F. lia. }
  cbn [canonical_loop]. set (i := str.find (cwd ++ slash :: d) dot pos) in *.
  replace (i =? str.npos) with false by (symmetry; apply Z.eqb_neq; lia).
  rewrite !(wrap_small (i - 1)), !(wrap_small (i + 1)), !(wrap_small (i + 2))
    by lia.
  rewrite !(wrap_small (str.size (cwd ++ slash :: d) - 1)), !(wrap_small (str.size (cwd ++ slash :: d) - 2))
    by (rewrite tail_size; lia).
  rewrite tail_size.
  assert (NS : i <> str.size cwd).
  { intro E. rewrite E, get_slash in G. discriminate G. }
  destruct (i <? str.size cwd) eqn:In.
  - (* a dot of the working directory: nothing to erase *)
    apply Z.ltb_lt in In.
    assert (Gc : str.get cwd i = dot) by (rewrite <- get_in_cwd by lia; exact G).
    destruct (is_char (cwd ++ slash :: d) (i - 1) slash) eqn:A.
    + rewrite is_char_in_cwd in A by lia.
      assert (R : 1 <= i < str.size (Path.string (Path.make cwd))) by (cbn; lia).
      replace (i <? str.size cwd + 1 + str.size d - 1) with true
        by (symmetry; apply Z.ltb_lt; lia).
      replace (i =? str.size cwd + 1 + str.size d - 1) with false
        by (symmetry; apply Z.eqb_neq; lia).
      replace (i =? str.size cwd + 1 + str.size d - 2) with false
        by (symmetry; apply Z.eqb_neq; lia).
      destruct (is_char (cwd ++ slash :: d) (i + 1) slash) eqn:C1.
      { exfalso. destruct (Z.eq_dec (i + 1) (str.size cwd)) as [E | NE].
        - apply (not_dot_end (Path.make cwd) i cwd_dot_free R A Gc). cbn. lia.
        - rewrite is_char_in_cwd in C1 by lia.
          apply (not_dot_slash (Path.make cwd) i cwd_dot_free R A Gc);
            [cbn; lia | exact C1]. }
      destruct (i <? str.size cwd + 1 + str.size d - 2); [|reflexivity].
      destruct (is_char (cwd ++ slash :: d) (i + 1) dot) eqn:C2; [|reflexivity].
      destruct (is_char (cwd ++ slash :: d) (i + 2) slash) eqn:C3; [|reflexivity].
      exfalso. destruct (Z.eq_dec (i + 1) (str.size cwd)) as [E1 | NE1].
      { unfold is_char in C2. rewrite E1, get_slash in C2. discriminate C2. }
      rewrite is_char_in_cwd in C2 by lia.
      destruct (Z.eq_dec (i + 2) (str.size cwd)) as [E2 | NE2].
      * apply (not_dotdot_end (Path.make cwd) i cwd_dot_free R A Gc);
          [cbn; lia | exact C2].
      * rewrite is_char_in_cwd in C3 by lia.
        apply (not_dotdot_slash (Path.make cwd) i cwd_dot_free R A Gc);
          [cbn; lia | exact C2 | exact C3].
    + destruct (i <? str.size cwd + 1 + str.size d - 2);
        destruct (i =? str.size cwd + 1 + str.size d - 2); reflexivity.
  - (* the dot after the working directory: cut and stop *)
    apply Z.ltb_ge in In. assert (E : i = str.size cwd + 1) by lia.
    rewrite !(wrap_small (i - 2)) by lia.
    replace (i - 2) with (str.size cwd - 1) by lia.
    replace (i - 1) with (str.size cwd) by lia.
    replace (is_char (cwd ++ slash :: d) (str.size cwd) slash) with true
      by (unfold is_char; rewrite get_slash; reflexivity).
    rewrite E. destruct d_dots as [Ed | Ed].
    + replace (str.size d) with 1 by (rewrite Ed; reflexivity).
      replace (str.size cwd + 1 <? str.size cwd + 1 + 1 - 1) with false
        by (symmetry; apply Z.ltb_ge; lia).
      replace (str.size cwd + 1 =? str.size cwd + 1 + 1 - 1) with true
        by (symmetry; apply Z.eqb_eq; lia).
      apply erase_to_parent.
    + replace (str.size d) with 2 by (rewrite Ed; reflexivity).
      replace (str.size cwd + 1 <? str.size cwd + 1 + 2 - 1) with true
        by (symmetry; apply Z.ltb_lt; lia).
      replace (is_char (cwd ++ slash :: d) (str.size cwd + 1 + 1) slash) with false
        by (unfold is_char; rewrite <- Z.add_assoc, get_after_cwd by lia;
            rewrite Ed; reflexivity).
      replace (str.size cwd + 1 =? str.size cwd + 1 + 2 - 1) with false
        by (symmetry; apply Z.eqb_neq; lia).
      replace (str.size cwd + 1 <? str.size cwd + 1 + 2 - 2) with false
        by (symmetry; apply Z.ltb_ge; lia).
      replace (str.size cwd + 1 =? str.size cwd + 1 + 2 - 2) with true
        by (symmetry; apply Z.eqb_eq; lia).
      replace (is_char (cwd ++ slash :: d) (str.size cwd + 1 + 1) dot) with true
        by (unfold is_char; rewrite <- Z.add_assoc, get_after_cwd by lia;
            rewrite Ed; reflexivity).
      apply erase_to_parent.
Qed.

Lemma dot_tail_loop (fuel : nat) :
  forall pos,
    1 <= pos <= str.size cwd + 1 ->
    (Z.to_nat (str.size cwd + 2 - pos) < fuel)%nat ->
    canonical_loop fuel (cwd ++ slash :: d) pos = Ret (before_last_slash cwd).
Proof.
  induction fuel as [|fuel IH]; intros pos P M; [lia|].
  rewrite dot_tail_step by exact P.
  pose proof (size_nonneg d) as Dn.
  assert (F := find_le (cwd ++ slash :: d) dot pos (str.size cwd + 1) ltac:(lia)
                 ltac:(rewrite tail_size; destruct d_dots as [-> | ->];
                       [change (str.size (lit ".")) with 1
                       |change (str.size (lit "..")) with 2]; lia)
                 get_first_dot).
  destruct (str.find (cwd ++ slash :: d) dot pos <? str.size cwd) eqn:In; [|reflexivity].
  apply Z.ltb_lt in In. apply IH; lia.
Qed.

End DotTail.

Lemma c_str_lacks (s : std_string) : lacks zero s = true -> str.c_str s = s.
Proof.
  induction s as [|x t IH]; [reflexivity|]. intro L. simpl.
  rewrite (lacks_head _ _ _ L). f_equal. apply IH.
  simpl in L. apply andb_true_iff in L. apply L.
Qed.



Lemma segments_app_slash (a b : std_string) :
  segments (a ++ slash :: b) = segments a ++ segments b.
Proof.
  induction a as [|c a IH]; [reflexivity|]. simpl.
  destruct (is_slash c); [rewrite IH; reflexivity|].
  rewrite IH. destruct (segments a) as [|h t] eqn:E;
    [exfalso; exact (segments_not_nil a E) | reflexivity].
Qed.

Lemma segments_plain (n : std_string) :
  no_slash n = true -> segments n = [n].
Proof.
  induction n as [|c n IH]; intro N; [reflexivity|].
  simpl in N. apply andb_true_iff in N. destruct N as [C N].
  apply negb_true_iff in C. simpl. rewrite C, (IH N). reflexivity.
Qed.

(** Joining a dot-free directory and a name that is not a dot name gives
    a dot-free path. *)
Lemma dot_free_join (cwd n : std_string) :
  dot_free (Path.make cwd) = true ->
  no_slash n = true -> is_dot_segment n = false ->
  dot_free (Path.make (cwd ++ slash :: n)) = true.
Proof.
  intros F N D. unfold dot_free in *. cbn [Path.string Path.s] in *.
  rewrite segments_app_slash, forallb_app, F, (segments_plain n N).
  simpl. rewrite D. reflexivity.
Qed.

Section WorkingDirectory.

Context {W : Type} {H : Host W}.

Variable w : W.
Variable cwd : std_string.

Hypothesis cwd_known : getcwd w 4096 = Some cwd.
Hypothesis cwd_c_string : lacks zero cwd = true.
Hypothesis cwd_rooted : rooted cwd = true.
Hypothesis cwd_dot_free : dot_free (Path.make cwd) = true.
Hypothesis cwd_open : ends_with_slash cwd = false.

Lemma complete_relative (r : Path) :
  Path.empty r = false -> is_absolute r = false ->
  complete w r = Ret (Path.make (cwd ++ slash :: Path.s r)).
Proof.
  intros NE A. unfold complete, currentdir. rewrite cwd_known.
  rewrite (c_str_lacks cwd cwd_c_string). destruct r as [sr].
  unfold is_absolute, Path.size, Path.string, Path.empty in *. cbn [Path.s] in *.
  destruct sr as [|c t]; [discriminate NE|].
  change (str.get (c :: t) 0) with c. rewrite A.
  replace ((0 <? str.size (c :: t)) &&& false) with false
    by (destruct (0 <? str.size (c :: t)); reflexivity).
  cbn [str.empty]. unfold Path.div. cbn [Path.s].
  destruct (rooted_cons cwd cwd_rooted) as [t' E].
  assert (X := cwd_open). rewrite E in X |- *. cbn [str.back bind].
  simpl in X. rewrite X. reflexivity.
Qed.

Lemma canonical_dot_names :
  forall fuel : nat,
    str.size cwd + 3 < str.npos ->
    (List.length cwd + 2 < fuel)%nat ->
    canonical fuel w (path ".") = Ret (Path.make (before_last_slash cwd))
    /\ canonical fuel w (path "..") = Ret (Path.make (before_last_slash cwd)).
Proof.
  intros fuel B L. unfold canonical.
  rewrite !complete_relative by reflexivity.
  cbn [bind Path.string Path.s path]. unfold forward_slashes.
  rewrite !(dot_tail_loop cwd _ cwd_rooted cwd_dot_free B);
    try (unfold str.size; lia);
    try (pose proof (cwd_size_positive cwd cwd_rooted); lia);
    [split; reflexivity | right; reflexivity | left; reflexivity].
Qed.

Lemma canonical_plain :
  forall (n : std_string) (fuel : nat),
    n <> [] -> no_slash n = true -> is_dot_segment n = false ->
    str.size cwd + str.size n + 1 < str.npos ->
    (List.length cwd + List.length n + 1 < fuel)%nat ->
    canonical fuel w (Path.make n) = Ret (Path.make (cwd ++ slash :: n)).
Proof.
  intros n fuel NE N D B L.
  assert (A : is_absolute (Path.make n) = false).
  { destruct n as [|c t]; [contradiction|]. simpl in N.
    apply andb_true_iff in N. destruct N as [C _].
    apply negb_true_iff in C. exact C. }
  assert (E : Path.empty (Path.make n) = false)
    by (destruct n; [contradiction | reflexivity]).
  unfold canonical. rewrite (complete_relative (Path.make n) E A).
  cbn [bind Path.s].
  change (s' <- canonical_loop fuel
                  (forward_slashes (Path.string (Path.make (cwd ++ slash :: n)))) 1 ;;
          Ret (Path.make s'))
    with (s' <- (c <- Ret (Path.make (cwd ++ slash :: n)) ;;
                 canonical_loop fuel (forward_slashes (Path.string c)) 1) ;;
          Ret (Path.make s')).
  assert (J : is_absolute (Path.make (cwd ++ slash :: n)) = true).
  { destruct (rooted_cons cwd cwd_rooted) as [t ->]. reflexivity. }
  assert (C := canonical_dot_free w (Path.make (cwd ++ slash :: n)) fuel J
                 (dot_free_join cwd n cwd_dot_free N D)).
  unfold canonical in C. rewrite (complete_absolute w _ J) in C.
  cbn [bind] in C |- *. apply C.
  - cbn [Path.string Path.s]. change (slash :: n) with ([slash] ++ n).
    rewrite !size_app. change (str.size [slash]) with 1. lia.
  - cbn [Path.string Path.s]. rewrite length_app. simpl. lia.
Qed.

End WorkingDirectory.

(** X16. With a working directory [cwd] that is absolute, without dot
    segments and not ending in a separator, [canonical] of [.] and of [..]
    are the same path: [cwd] cut at its last separator. *)
Theorem canonical_of_dot_and_dotdot :
  forall (W : Type) (H : Host W) (w : W) (cwd : std_string) (fuel : nat),
    getcwd w 4096 = Some cwd ->
    lacks zero cwd = true ->
    rooted cwd = true ->
    dot_free (Path.make cwd) = true ->
    ends_with_slash cwd = false ->
    str.size cwd + 3 < str.npos ->
    (List.length cwd + 2 < fuel)%nat ->
    canonical fuel w (path ".") = Ret (Path.make (before_last_slash cwd))
    /\ canonical fuel w (path "..") = Ret (Path.make (before_last_slash cwd)).
Proof.
  intros W H w cwd fuel G Z R F E B L.
  destruct (canonical_dot_names w cwd G Z R F E fuel B L) as [C1 C2].
  split; [exact C1 | exact C2].
Qed.

Lemma canonical_of_dot_and_dotdot_witness :
  canonical 16 trees.bare (path ".")
    = Ret (Path.make (before_last_slash (lit "/home/u")))
  /\ canonical 16 trees.bare (path "..")
     = Ret (Path.make (before_last_slash (lit "/home/u"))).
Proof.
  apply (canonical_of_dot_and_dotdot memfs.t memfs_host trees.bare
           (lit "/home/u") 16); try reflexivity.
  vm_compute. lia.
Defined.

(** X17. With such a working directory, [canonical] of a name without a
    separator that is not [.] or [..] is [cwd], a separator and the
    name. *)
Theorem canonical_of_plain_name :
  forall (W : Type) (H : Host W) (w : W) (cwd n : std_string) (fuel : nat),
    getcwd w 4096 = Some cwd ->
    lacks zero cwd = true ->
    rooted cwd = true ->
    dot_free (Path.make cwd) = true ->
    ends_with_slash cwd = false ->
    n <> [] -> no_slash n = true -> is_dot_segment n = false ->
    str.size cwd + str.size n + 1 < str.npos ->
    (List.length cwd + List.length n + 1 < fuel)%nat ->
    canonical fuel w (Path.make n) = Ret (Path.make (cwd ++ slash :: n)).
Proof.
  intros W H w cwd n fuel G Z R F E NE N D B L.
  rewrite (canonical_plain w cwd G Z R F E n fuel NE N D B L). reflexivity.
Qed.

Lemma canonical_of_plain_name_witness :
  canonical 24 trees.bare (Path.make (lit "a.txt"))
  = Ret (Path.make (lit "/home/u" ++ slash :: lit "a.txt")).
Proof.
  apply (canonical_of_plain_name memfs.t memfs_host trees.bare
           (lit "/home/u") (lit "a.txt") 24); try reflexivity.
  - discriminate.
  - vm_compute. lia.
Defined.




Section SkipTest.

Context {W : Type} {H : Host W}.

Variable w : W.
Variable cwd : std_string.

Hypothesis cwd_known : getcwd w 4096 = Some cwd.
Hypothesis cwd_c_string : lacks zero cwd = true.
Hypothesis cwd_rooted : rooted cwd = true.
Hypothesis cwd_dot_free : dot_free (Path.make cwd) = true.
Hypothesis cwd_open : ends_with_slash cwd = false.


End SkipTest.



(** ** remove_all on a directory of files *)




Section FlatDirectory.

Context {W : Type} {H : Host W}.

Variable cwd : std_string.
Variable p : Path.
Variable cf : nat.

Hypothesis cwd_c_string : lacks zero cwd = true.
Hypothesis cwd_rooted : rooted cwd = true.
Hypothesis cwd_dot_free : dot_free (Path.make cwd) = true.
Hypothesis cwd_open : ends_with_slash cwd = false.
Hypothesis cf_fits : Z.of_nat cf < str.npos.
Hypothesis cf_enough : (List.length cwd + List.length (Path.s p) + 4 <= cf)%nat.





End FlatDirectory.





